(** * github-docs: chunker, vector store, retriever and freshness gate

    A shallow embedding of [build/embeddings.js] (EmbeddingsService),
    [build/vector-store.js] (VectorStore) and of the indexers and tools of
    [src/index.ts], followed by the properties the specification states
    about them (C1 to C10) and by further properties of the code (X1 on).

    JavaScript strings are sequences of UTF-16 code units, JavaScript
    numbers are IEEE binary64 values (Rocq's primitive floats), the SQLite
    tables are lists of rows kept in rowid order. *)

From Stdlib Require Import String Ascii ZArith NArith Bool Lia List Permutation Sorted.
From Corelib Require Import PrimFloat PrimInt63.
Import ListNotations.

(* ================================================================== *)
(** * Part I: the program                                              *)
(* ================================================================== *)

(** ** JavaScript strings *)

Module JSString.

(** A string is the list of its UTF-16 code units. *)
Definition jsstring : Type := list N.

(** Literals of the source, written as Rocq strings. *)
Definition js (s : string) : jsstring :=
  map N_of_ascii (list_ascii_of_string s).

Fixpoint jseqb (a b : jsstring) : bool :=
  match a, b with
  | [], [] => true
  | x :: a', y :: b' => N.eqb x y && jseqb a' b'
  | _, _ => false
  end.

(** [s || ''] and the truthiness of a string: the empty string is falsy. *)
Definition truthy (s : jsstring) : bool :=
  match s with [] => false | _ :: _ => true end.

(** WhiteSpace and LineTerminator code units, as [String.prototype.trim]
    removes them. *)
Definition isWhiteSpace (c : N) : bool :=
  ((9 <=? c) && (c <=? 13) || (c =? 32) || (c =? 160) || (c =? 5760)
   || (8192 <=? c) && (c <=? 8202) || (c =? 8232) || (c =? 8233)
   || (c =? 8239) || (c =? 8287) || (c =? 12288) || (c =? 65279))%N.

Fixpoint trimStart (s : jsstring) : jsstring :=
  match s with
  | [] => []
  | c :: s' => if isWhiteSpace c then trimStart s' else s
  end.

Definition trimEnd (s : jsstring) : jsstring := rev (trimStart (rev s)).

Definition trim (s : jsstring) : jsstring := trimEnd (trimStart s).

(** [s.substring(0, n)] for [0 <= n]. *)
Definition substring0 (n : nat) (s : jsstring) : jsstring := firstn n s.

(** [s.endsWith(suffix)]. *)
Definition endsWith (s suffix : jsstring) : bool :=
  (length suffix <=? length s)%nat
  && jseqb (skipn (length s - length suffix) s) suffix.

(** [s.split(sep)] for a separator of one code unit: the segments between
    the occurrences of [sep]; never an empty array. *)
Fixpoint split (sep : N) (s : jsstring) : list jsstring :=
  match s with
  | [] => [[]]
  | c :: s' =>
      if N.eqb c sep then [] :: split sep s'
      else match split sep s' with
           | seg :: segs => (c :: seg) :: segs
           | [] => [[c]]
           end
  end.

(** [arr.pop()]: the last element, [undefined] (here [None]) when empty. *)
Definition pop {A : Type} (l : list A) : option A :=
  match rev l with [] => None | x :: _ => Some x end.

End JSString.

Import JSString.

(** ** EmbeddingsService: the chunker of build/embeddings.js *)

Module Embeddings.

(** The fields of a markdown-it token that the chunker reads. *)
Record Token : Type := mkToken {
  tok_type : jsstring;
  tok_tag : jsstring;
  tok_content : jsstring
}.

(** TextChunk. The chunker always sets [title]; [section] is
    [currentSection || undefined]. *)
Record TextChunk : Type := mkChunk {
  content : jsstring;
  title : jsstring;
  section : option jsstring
}.

(** [fileName.replace(/\.md$/, '')]. *)
Definition stripMd (fileName : jsstring) : jsstring :=
  if endsWith fileName (js ".md")
  then firstn (length fileName - 3) fileName
  else fileName.

(** [s.replace(/[-_]/g, ' ')]. *)
Definition separatorToSpace (c : N) : N :=
  if (N.eqb c 45 || N.eqb c 95)%bool then 32%N else c.

Definition extractTitleFromPath (filePath : jsstring) : jsstring :=
  let fileName :=
    match pop (split 47 filePath) with
    | Some seg => if truthy seg then seg else []
    | None => []
    end in
  map separatorToSpace (stripMd fileName).




(** The running state of [chunkMarkdownContent]. *)
Record Acc : Type := mkAcc {
  chunks : list TextChunk;
  currentSection : jsstring;
  currentContent : jsstring;
  currentTitle : jsstring
}.

Definition orUndefined (s : jsstring) : option jsstring :=
  if truthy s then Some s else None.

(** [chunks.push({content: currentContent.trim(), title, section})]. *)
Definition pushCurrent (st : Acc) : list TextChunk :=
  chunks st ++ [mkChunk (trim (currentContent st)) (currentTitle st)
                        (orUndefined (currentSection st))].

(** The inner [while] loop started at [j = i + 1]: the content of the
    inline tokens up to the first token whose type ends in [_close],
    each followed by a space. *)
Fixpoint collectInline (rest : list Token) : jsstring :=
  match rest with
  | [] => []
  | t :: rest' =>
      if endsWith (tok_type t) (js "_close") then []
      else (if jseqb (tok_type t) (js "inline")
            then tok_content t ++ js " " else [])
           ++ collectInline rest'
  end.

Definition lf2 : jsstring := [10; 10]%N.

(** The line a heading contributes: [`# ${headingToken.content}\n\n`]. *)
Definition headingLine (h : Token) : jsstring :=
  js "# " ++ tok_content h ++ lf2.

Definition isBlockOpen (t : Token) : bool :=
  jseqb (tok_type t) (js "paragraph_open")
  || jseqb (tok_type t) (js "list_item_open")
  || jseqb (tok_type t) (js "blockquote_open")
  || jseqb (tok_type t) (js "code_block").

(** [contentToAdd] of the second branch. *)
Definition contentToAdd (token : Token) (rest : list Token) : jsstring :=
  if jseqb (tok_type token) (js "code_block")
  then [96; 96; 96; 10]%N ++ tok_content token ++ [10; 96; 96; 96; 10; 10]%N
  else collectInline rest ++ lf2.

(** One iteration of the [for] loop at [tokens[i] = token], with
    [rest = tokens[i+1 ..]]. *)
Definition step (token : Token) (rest : list Token) (st : Acc) : Acc :=
  if jseqb (tok_type token) (js "heading_open") then
    let st1 :=
      if truthy (trim (currentContent st))
      then mkAcc (pushCurrent st) (currentSection st) [] (currentTitle st)
      else st in
    match rest with
    | headingToken :: _ =>
        if jseqb (tok_type headingToken) (js "inline") then
          let st2 :=
            if jseqb (tok_tag token) (js "h1")
            then mkAcc (chunks st1) [] (currentContent st1)
                       (tok_content headingToken)
            else mkAcc (chunks st1) (tok_content headingToken)
                       (currentContent st1) (currentTitle st1) in
          mkAcc (chunks st2) (currentSection st2)
                (currentContent st2 ++ headingLine headingToken)
                (currentTitle st2)
        else st1
    | [] => st1
    end
  else if isBlockOpen token then
    let add := contentToAdd token rest in
    if (1500 <? length (currentContent st) + length add)%nat then
      mkAcc (if truthy (trim (currentContent st))
             then pushCurrent st else chunks st)
            (currentSection st) add (currentTitle st)
    else
      mkAcc (chunks st) (currentSection st)
            (currentContent st ++ add) (currentTitle st)
  else st.

Fixpoint loop (tokens : list Token) (st : Acc) : Acc :=
  match tokens with
  | [] => st
  | token :: rest => loop rest (step token rest st)
  end.

(** The chunks after the loop and the final push, before the test
    [chunks.length === 0]. *)
Definition structuredChunks (tokens : list Token) (filePath : jsstring)
  : list TextChunk :=
  let st := loop tokens (mkAcc [] [] [] (extractTitleFromPath filePath)) in
  if truthy (trim (currentContent st)) then pushCurrent st else chunks st.

(** The title in force when the loop ends. *)
Definition finalTitle (tokens : list Token) (filePath : jsstring) : jsstring :=
  currentTitle (loop tokens (mkAcc [] [] [] (extractTitleFromPath filePath))).

Section Chunker.

(** [this.markdown.parse(content, {})]: markdown-it is an external
    library, so its parser is a parameter of the chunker. *)
Variable parse : jsstring -> list Token.

Definition chunkMarkdownContent (content filePath : jsstring)
  : list TextChunk :=
  let tokens := parse content in
  match structuredChunks tokens filePath with
  | [] => [mkChunk (substring0 1500 content) (finalTitle tokens filePath) None]
  | cs => cs
  end.

End Chunker.

(** The pieces of text the loop adds to the accumulator, one per heading
    with an inline token behind it and one per block element. *)
Fixpoint pieces (tokens : list Token) : list jsstring :=
  match tokens with
  | [] => []
  | token :: rest =>
      (if jseqb (tok_type token) (js "heading_open") then
         match rest with
         | h :: _ => if jseqb (tok_type h) (js "inline")
                     then [headingLine h] else []
         | [] => []
         end
       else if isBlockOpen token then [contentToAdd token rest]
       else [])
      ++ pieces rest
  end.

(** Token streams of markdown-it for three small documents. *)
Definition tk (ty tg : string) : Token := mkToken (js ty) (js tg) [].
Definition inlineTok (text : jsstring) : Token := mkToken (js "inline") [] text.

(** A paragraph: [paragraph_open, inline, paragraph_close]. *)
Definition paragraphTokens (text : jsstring) : list Token :=
  [tk "paragraph_open" "p"; inlineTok text; tk "paragraph_close" "p"].

(** ["- item"]: a bullet list with one item, whose text sits in a
    paragraph inside the item. *)
Definition listItemTokens (text : jsstring) : list Token :=
  [tk "bullet_list_open" "ul"; tk "list_item_open" "li"]
  ++ paragraphTokens text
  ++ [tk "list_item_close" "li"; tk "bullet_list_close" "ul"].

(** ["> quote"]: a block quote around one paragraph. *)
Definition blockquoteTokens (text : jsstring) : list Token :=
  [tk "blockquote_open" "blockquote"]
  ++ paragraphTokens text
  ++ [tk "blockquote_close" "blockquote"].

(** A document of one line of 1600 letters [a]. *)
Definition longLine : jsstring := repeat 97%N 1600.

(** The loop invariant behind the size of the chunks: the chunks pushed so
    far and the trimmed accumulator are at most [bound] long. *)
Definition sizeBounded (bound : nat) (st : Acc) : Prop :=
  Forall (fun c => length (content c) <= bound) (chunks st)
  /\ length (trim (currentContent st)) <= bound.

(** The loop invariant behind the content of the chunks: every chunk pushed
    so far has visible content. *)
Definition allVisible (cs : list TextChunk) : Prop :=
  Forall (fun c => trim (content c) <> []) cs.

End Embeddings.


(** ** VectorStore: build/vector-store.js over SQLite *)

Module VectorStore.

(** *** Numbers and Float32Array *)

(** Rounding of a non-negative binary64 value below 2^52 to the nearest
    integer, ties to even. *)
Definition roundToInteger (y : float) : float :=
  ((y + 0x1p52) - 0x1p52)%float.

(** The conversion of a number to a Float32Array element and back
    ([Math.fround]): the nearest binary32 value, ties to even. *)
Definition fround (x : float) : float :=
  let a := abs x in
  if negb (a =? a)%float then x
  else if (a =? 0)%float then x
  else if (0x1.ffffffp127 <=? a)%float then (x / 0)%float
  else
    let r :=
      if (a <? 0x1p-126)%float
      then (roundToInteger (a * 0x1p149) * 0x1p-149)%float
      else let '(m, e) := frshiftexp a in
           ldshiftexp (roundToInteger (m * 0x1p24)%float)
                      (PrimInt63.sub e 24%uint63) in
    if (x <? 0)%float then (- r)%float else r.

(** [Array.from(new Float32Array(new Float32Array(a).buffer))]: what is
    read back from the blob written for [a]. *)
Definition toFloat32Array (a : list float) : list float := map fround a.

(** *** The interface types of vector-store.d.ts *)

Record Metadata : Type := mkMetadata {
  title : option jsstring;
  section : option jsstring;
  lastUpdated : jsstring;
  commitHash : option jsstring
}.

Record DocumentChunk : Type := mkDoc {
  id : option Z;
  repo : jsstring;
  filePath : jsstring;
  content : jsstring;
  embedding : list float;
  metadata : Metadata
}.

Record SearchResult : Type := mkResult {
  document : DocumentChunk;
  similarity : float
}.

Record RepoStats : Type := mkStats {
  stat_repo : jsstring;
  docCount : Z;
  stat_lastUpdated : jsstring
}.

(** *** The database of initializeDatabase *)

(** A row of [documents]. The [metadata] column holds
    [JSON.stringify(doc.metadata)] and is read through [JSON.parse], which
    gives the record back. *)
Record DocRow : Type := mkDocRow {
  row_id : Z;
  row_repo : jsstring;
  row_file_path : jsstring;
  row_content : jsstring;
  row_metadata : Metadata;
  row_last_updated : jsstring;
  row_commit_hash : jsstring
}.

(** A row of [embeddings]; the blob is the list of its binary32 values. *)
Record EmbRow : Type := mkEmbRow {
  emb_id : Z;
  emb_document_id : Z;
  emb_embedding : list float
}.

(** Both tables in rowid order, the AUTOINCREMENT counter of [documents]
    (sqlite_sequence) and the connection's [foreign_keys] pragma. *)
Record Database : Type := mkDb {
  documents : list DocRow;
  documents_seq : Z;
  embeddings : list EmbRow;
  foreign_keys : bool
}.

(** [new Database(dbPath)] on a new file followed by initializeDatabase.
    The source never sets [PRAGMA foreign_keys], so the pragma has the
    default of the SQLite build: [true] for the SQLite that better-sqlite3
    bundles (compiled with SQLITE_DEFAULT_FOREIGN_KEYS=1). *)
Definition open (defaultForeignKeys : bool) : Database :=
  mkDb [] 0 [] defaultForeignKeys.

(** *** Statements: state and exceptions *)

Inductive Error : Type := TypeError | SqliteError.

Inductive Result (A : Type) : Type :=
| Ok (a : A)
| Throw (e : Error).

Arguments Ok {A} a.
Arguments Throw {A} e.

(** A computation on the store. Every statement commits on its own (the
    source opens no transaction), so an exception keeps the state reached
    so far. *)
Definition M (A : Type) : Type := Database -> Database * Result A.

Definition ret {A : Type} (a : A) : M A := fun db => (db, Ok a).

Definition throw {A : Type} (e : Error) : M A := fun db => (db, Throw e).

Definition bind {A B : Type} (m : M A) (k : A -> M B) : M B :=
  fun db =>
    match m db with
    | (db', Ok a) => k a db'
    | (db', Throw e) => (db', Throw e)
    end.

Notation "x <- m ;; k" := (bind m (fun x => k))
  (at level 61, m at next level, right associativity).

(** Whether the storage carries a statement out or [run] throws (disk
    full, I/O error, closed database); a failed statement changes
    nothing. *)
Inductive Substrate : Type := Executes | Fails.

Definition run {A : Type} (o : Substrate) (stmt : M A) : M A :=
  match o with
  | Executes => stmt
  | Fails => throw SqliteError
  end.

Definition maxRowid {A : Type} (rowid : A -> Z) (rows : list A) : Z :=
  fold_right Z.max 0%Z (map rowid rows).

(** The rows that violate UNIQUE(repo, file_path, content) against the
    values being inserted. *)
Definition conflicts (r f c : jsstring) (d : DocRow) : bool :=
  jseqb (row_repo d) r && jseqb (row_file_path d) f && jseqb (row_content d) c.

(** ON DELETE CASCADE: with foreign keys enforced, the embeddings of the
    removed documents go with them. *)
Definition cascade (fk : bool) (removed : list DocRow) (es : list EmbRow)
  : list EmbRow :=
  if fk
  then filter (fun e => negb (existsb (fun d => Z.eqb (emb_document_id e) (row_id d))
                                      removed)) es
  else es.

(** [INSERT OR REPLACE INTO documents (repo, file_path, content, metadata,
    last_updated, commit_hash) VALUES (?, ?, ?, ?, ?, ?)]: the conflicting
    rows are deleted, the new row gets the next AUTOINCREMENT id; the
    result is [lastInsertRowid]. *)
Definition nextDocumentId (db : Database) : Z :=
  (Z.max (documents_seq db) (maxRowid row_id (documents db)) + 1)%Z.

Definition insertOrReplaceDocument (r f c : jsstring) (m : Metadata)
  (lu h : jsstring) : M Z :=
  fun db =>
    let newId := nextDocumentId db in
    let removed := filter (conflicts r f c) (documents db) in
    let kept := filter (fun d => negb (conflicts r f c d)) (documents db) in
    (mkDb (kept ++ [mkDocRow newId r f c m lu h]) newId
          (cascade (foreign_keys db) removed (embeddings db))
          (foreign_keys db),
     Ok newId).

(** [INSERT OR REPLACE INTO embeddings (document_id, embedding) VALUES
    (?, ?)]: [id] is the rowid, assigned as the largest one plus one, so
    nothing conflicts; the foreign key is checked when enforced. *)
Definition insertEmbedding (documentId : Z) (blob : list float) : M unit :=
  fun db =>
    if foreign_keys db
       && negb (existsb (fun d => Z.eqb (row_id d) documentId) (documents db))
    then (db, Throw SqliteError)
    else (mkDb (documents db) (documents_seq db)
               (embeddings db
                ++ [mkEmbRow (maxRowid emb_id (embeddings db) + 1)%Z documentId blob])
               (foreign_keys db),
          Ok tt).

(** [addDocument(doc)]. better-sqlite3 binds numbers, strings, bigints,
    buffers and null only: an absent [commitHash] ([undefined]) makes the
    first [run] throw a TypeError before it writes. [o1] and [o2] say
    whether the storage carries out the first and the second statement. *)
Definition addDocument (o1 o2 : Substrate) (doc : DocumentChunk) : M Z :=
  match commitHash (metadata doc) with
  | None => throw TypeError
  | Some h =>
      documentId <- run o1 (insertOrReplaceDocument (repo doc) (filePath doc)
                              (content doc) (metadata doc)
                              (lastUpdated (metadata doc)) h) ;;
      _ <- run o2 (insertEmbedding documentId (toFloat32Array (embedding doc))) ;;
      ret documentId
  end.

(** The store after the first statement of an upsert, and after both. *)
Definition afterDocumentWrite (doc : DocumentChunk) (h : jsstring)
  (db : Database) : Database :=
  fst (insertOrReplaceDocument (repo doc) (filePath doc) (content doc)
         (metadata doc) (lastUpdated (metadata doc)) h db).

Definition afterUpsert (doc : DocumentChunk) (h : jsstring) (db : Database)
  : Database :=
  fst (insertEmbedding (nextDocumentId db) (toFloat32Array (embedding doc))
         (afterDocumentWrite doc h db)).

(** The rows an upsert writes. *)
Definition documentRow (newId : Z) (doc : DocumentChunk) (h : jsstring) : DocRow :=
  mkDocRow newId (repo doc) (filePath doc) (content doc) (metadata doc)
           (lastUpdated (metadata doc)) h.

Definition conflictsWith (doc : DocumentChunk) (d : DocRow) : bool :=
  conflicts (repo doc) (filePath doc) (content doc) d.

(** [DELETE FROM documents WHERE repo = ?]. *)
Definition deleteDocumentsWhereRepo (r : jsstring) : M unit :=
  fun db =>
    let removed := filter (fun d => jseqb (row_repo d) r) (documents db) in
    (mkDb (filter (fun d => negb (jseqb (row_repo d) r)) (documents db))
          (documents_seq db)
          (cascade (foreign_keys db) removed (embeddings db))
          (foreign_keys db),
     Ok tt).

Definition deleteRepo (o : Substrate) (r : jsstring) : M unit :=
  run o (deleteDocumentsWhereRepo r).

(** *** Queries *)

(** [FROM documents d JOIN embeddings e ON d.id = e.document_id]. *)
Definition joinRows (db : Database) : list (DocRow * EmbRow) :=
  flat_map (fun d => map (pair d)
                       (filter (fun e => Z.eqb (emb_document_id e) (row_id d))
                               (embeddings db)))
           (documents db).

(** Comparison of TEXT values, code unit by code unit. *)
Fixpoint textLtb (a b : jsstring) : bool :=
  match a, b with
  | _, [] => false
  | [], _ :: _ => true
  | x :: a', y :: b' => N.ltb x y || (N.eqb x y && textLtb a' b')
  end.

(** A stable sort: [after y x] says that [y] has to come after [x].
    [Array.prototype.sort] is stable, and so is this model of ORDER BY,
    which SQL leaves free to order equal keys in any way. *)
Fixpoint insertSorted {A : Type} (after : A -> A -> bool) (x : A) (l : list A)
  : list A :=
  match l with
  | [] => [x]
  | y :: l' => if after y x then x :: l else y :: insertSorted after x l'
  end.

Definition sortBy {A : Type} (after : A -> A -> bool) (l : list A) : list A :=
  fold_left (fun acc x => insertSorted after x acc) l [].

(** [after] is a strict order on the elements of [l]: what a comparator
    has to be for the order of the sorted array to be determined. *)
Definition strictOn {A : Type} (after : A -> A -> bool) (l : list A) : Prop :=
  (forall a b, In a l -> In b l -> after a b = true -> after b a = false)
  /\ (forall a b c, In a l -> In b l -> In c l ->
        after a b = true -> after b c = true -> after a c = true).

(** [ORDER BY d.last_updated DESC]. *)
Definition orderByLastUpdatedDesc (rows : list (DocRow * EmbRow))
  : list (DocRow * EmbRow) :=
  sortBy (fun y x => textLtb (row_last_updated (fst y)) (row_last_updated (fst x)))
         rows.

(** [LIMIT n]: a negative limit is no limit. *)
Definition sqlLimit {A : Type} (n : Z) (l : list A) : list A :=
  if (n <? 0)%Z then l else firstn (Z.to_nat n) l.

(** [arr.slice(0, n)] for an integer [n]: a negative end counts from the
    end of the array. *)
Definition slice0 {A : Type} (n : Z) (l : list A) : list A :=
  if (n <? 0)%Z then firstn (Z.to_nat (Z.of_nat (length l) + n)) l
  else firstn (Z.to_nat n) l.

(** [a.reduce((sum, val, i) => sum + val * b[i], 0)] from index [i] on;
    [b[i]] is [undefined] past the end of [b], and a product with
    [undefined] is NaN. *)
Fixpoint dotFrom (i : nat) (a b : list float) (sum : float) : float :=
  match a with
  | [] => sum
  | val :: a' =>
      dotFrom (S i) a' b
        (sum + val * match nth_error b i with Some x => x | None => nan end)%float
  end.

Definition magnitude (a : list float) : float :=
  sqrt (fold_left (fun sum val => sum + val * val)%float a 0%float).

Definition cosineSimilarity (a b : list float) : float :=
  let dotProduct := dotFrom 0 a b 0%float in
  let magnitudeA := magnitude a in
  let magnitudeB := magnitude b in
  if (magnitudeA =? 0)%float || (magnitudeB =? 0)%float then 0%float
  else (dotProduct / (magnitudeA * magnitudeB))%float.

Definition toChunk (r : DocRow * EmbRow) : DocumentChunk :=
  mkDoc (Some (row_id (fst r))) (row_repo (fst r)) (row_file_path (fst r))
        (row_content (fst r)) (emb_embedding (snd r)) (row_metadata (fst r)).

(** The rows the query of searchSimilar selects before ORDER BY: all joined
    rows, or those whose repo is in a filter that is given and not empty. *)
Definition candidates (db : Database) (repoFilter : option (list jsstring))
  : list (DocRow * EmbRow) :=
  match repoFilter with
  | Some ((_ :: _) as repos) =>
      filter (fun r => existsb (jseqb (row_repo (fst r))) repos) (joinRows db)
  | _ => joinRows db
  end.

Definition score (queryEmbedding : list float) (r : DocRow * EmbRow)
  : SearchResult :=
  mkResult (toChunk r) (cosineSimilarity queryEmbedding (emb_embedding (snd r))).

(** [results.sort((a, b) => b.similarity - a.similarity)]: [a] goes after
    [b] when the comparator is positive. *)
Definition sortBySimilarity (results : list SearchResult) : list SearchResult :=
  sortBy (fun a b => (0 <? similarity b - similarity a)%float) results.

(** The rows fetched by the query: the first [limit * 3] candidates in
    descending order of [last_updated]. *)
Definition fetched (db : Database) (limit : Z)
  (repoFilter : option (list jsstring)) : list (DocRow * EmbRow) :=
  sqlLimit (limit * 3) (orderByLastUpdatedDesc (candidates db repoFilter)).

(** [searchSimilar(queryEmbedding, limit, repoFilter)]; the source's
    default for an omitted [limit] is 10. *)
Definition searchSimilar (db : Database) (queryEmbedding : list float)
  (limit : Z) (repoFilter : option (list jsstring)) : list SearchResult :=
  slice0 limit
    (sortBySimilarity (map (score queryEmbedding) (fetched db limit repoFilter))).

Definition getDocumentsByRepo (db : Database) (r : jsstring)
  : list DocumentChunk :=
  map toChunk
    (orderByLastUpdatedDesc
       (filter (fun row => jseqb (row_repo (fst row)) r) (joinRows db))).

(** [SELECT repo, COUNT( * ), MAX(last_updated) FROM documents GROUP BY repo
    ORDER BY repo]. *)
Fixpoint addToGroup (d : DocRow) (groups : list RepoStats) : list RepoStats :=
  match groups with
  | [] => [mkStats (row_repo d) 1 (row_last_updated d)]
  | g :: gs =>
      if jseqb (stat_repo g) (row_repo d) then
        mkStats (stat_repo g) (docCount g + 1)
                (if textLtb (stat_lastUpdated g) (row_last_updated d)
                 then row_last_updated d else stat_lastUpdated g) :: gs
      else if textLtb (row_repo d) (stat_repo g) then
        mkStats (row_repo d) 1 (row_last_updated d) :: groups
      else g :: addToGroup d gs
  end.

Definition getRepoStats (db : Database) : list RepoStats :=
  fold_left (fun groups d => addToGroup d groups) (documents db) [].

(** *** The stores the operations can produce *)

Inductive reachable (fk : bool) : Database -> Prop :=
| reach_open : reachable fk (open fk)
| reach_add : forall db o1 o2 doc,
    reachable fk db -> reachable fk (fst (addDocument o1 o2 doc db))
| reach_delete : forall db o r,
    reachable fk db -> reachable fk (fst (deleteRepo o r db)).

(** The store after the given upserts, all carried out. *)
Definition addAll (docs : list DocumentChunk) (db : Database) : Database :=
  fold_left (fun db doc => fst (addDocument Executes Executes doc db)) docs db.

(** *** The retrieval rule in the words of the specification *)


(** *** Invariants of the tables *)

(** Row ids of [documents] are distinct, and the ids handed out so far,
    also those that embeddings still refer to, are at most the
    AUTOINCREMENT counter. *)
Definition wellFormed (db : Database) : Prop :=
  NoDup (map row_id (documents db))
  /\ (forall d, In d (documents db) -> (row_id d <= documents_seq db)%Z)
  /\ (forall e, In e (embeddings db) -> (emb_document_id e <= documents_seq db)%Z).

(** No embedding row without its chunk row. *)
Definition noOrphanEmbedding (db : Database) : Prop :=
  forall e, In e (embeddings db) ->
    exists d, In d (documents db) /\ row_id d = emb_document_id e.

(** One write operation of the store. *)
Definition storeStep (db db' : Database) : Prop :=
  (exists o1 o2 doc, db' = fst (addDocument o1 o2 doc db))
  \/ (exists o r, db' = fst (deleteRepo o r db)).





(** *** Sample chunks and stores *)

Definition sampleDoc (path stamp : string) (e : list float) : DocumentChunk :=
  mkDoc None (js "a/b") (js path) (js "X") e
        (mkMetadata None None (js stamp) (Some (js "4f2a9c1"))).

(** One old chunk that matches the query [1, 0] exactly and three newer
    ones orthogonal to it. *)
Definition recencyStore : Database :=
  addAll [sampleDoc "docs/old.md" "2024-01-01T00:00:00Z" [1; 0]%float;
          sampleDoc "docs/n1.md" "2024-01-02T00:00:00Z" [0; 1]%float;
          sampleDoc "docs/n2.md" "2024-01-03T00:00:00Z" [0; 1]%float;
          sampleDoc "docs/n3.md" "2024-01-04T00:00:00Z" [0; 1]%float]
         (open true).

(** A store of dimension 2 that is given a chunk of dimension 3. *)
Definition dim2Doc : DocumentChunk :=
  sampleDoc "docs/two.md" "2024-01-01T00:00:00Z" [0; 1]%float.

Definition dim3Doc : DocumentChunk :=
  sampleDoc "docs/three.md" "2024-01-02T00:00:00Z" [3; 0; 4]%float.

Definition mixedStore : Database := addAll [dim2Doc; dim3Doc] (open true).

(** Two upserts of one key with different embeddings. *)
Definition firstUpsert : DocumentChunk :=
  sampleDoc "README.md" "2024-01-01T00:00:00Z" [1; 0]%float.

Definition secondUpsert : DocumentChunk :=
  sampleDoc "README.md" "2024-01-01T00:00:00Z" [0; 1]%float.


End VectorStore.


(** ** The freshness test of autoIndexRepositories (src/index.ts) *)

Module Index.

Section FreshnessGate.

(** The time value of [new Date(s)] in milliseconds; [None] is the
    Invalid Date, whose time value is NaN. *)
Variable parseDate : jsstring -> option Z.

(** [a >= b] on two Dates: false as soon as one of them is invalid. *)
Definition dateGe (a b : option Z) : bool :=
  match a, b with
  | Some x, Some y => (y <=? x)%Z
  | _, _ => false
  end.

(** [stats.find((s) => s.repo === fullName)]. *)
Definition existingRepo (stats : list VectorStore.RepoStats)
  (fullName : jsstring) : option VectorStore.RepoStats :=
  find (fun s => jseqb (VectorStore.stat_repo s) fullName) stats.

(** [existingRepo && new Date(existingRepo.lastUpdated) >= new
    Date(repo.updatedAt)]: the repository is skipped. *)
Definition upToDate (existing : option VectorStore.RepoStats)
  (updatedAt : jsstring) : bool :=
  match existing with
  | Some e => dateGe (parseDate (VectorStore.stat_lastUpdated e))
                     (parseDate updatedAt)
  | None => false
  end.

(** The repository is indexed when it is not skipped. *)
Definition needsReindex (existing : option VectorStore.RepoStats)
  (updatedAt : jsstring) : bool :=
  negb (upToDate existing updatedAt).

End FreshnessGate.

(** The time values of two timestamps as GitHub reports them. *)
Definition sampleDates : list (string * Z) :=
  [("2024-01-15T10:30:00Z"%string, 1705314600000%Z);
   ("2024-02-01T00:00:00Z"%string, 1706745600000%Z)].

Definition sampleParse (s : jsstring) : option Z :=
  match find (fun p => jseqb (js (fst p)) s) sampleDates with
  | Some p => Some (snd p)
  | None => None
  end.

End Index.

(** ** More sample stores *)

Module StoreSamples.

Import VectorStore.

(** A chunk of a second repository. *)
Definition otherRepoDoc : DocumentChunk :=
  mkDoc None (js "c/d") (js "docs/x.md") (js "Y") [1; 0]%float
        (mkMetadata (Some (js "X")) None (js "2024-01-05T00:00:00Z")
                    (Some (js "9e1b77d"))).

Definition twoRepoStore : Database :=
  addAll [otherRepoDoc; firstUpsert; dim2Doc] (open true).

End StoreSamples.

(** ** The tools of src/index.ts that write to or read from the store *)

Module Tools.

Import VectorStore.

(** *** get_repo_stats *)

(** [stats.reduce((sum, stat) => sum + stat.docCount, 0)]. *)
Definition totalDocs (stats : list RepoStats) : Z :=
  fold_left (fun sum stat => (sum + docCount stat)%Z) stats 0%Z.

(** The entries are in strictly ascending order of [repo]: ORDER BY repo
    over groups of distinct repositories. *)
Definition ascending (groups : list RepoStats) : Prop :=
  StronglySorted (fun a b => textLtb (stat_repo a) (stat_repo b) = true) groups.

(** The entry of [getRepoStats] for one repository, computed from the
    chunk rows alone: their number and their latest [last_updated]. *)
Definition statOf (r : jsstring) (docs : list DocRow) : option RepoStats :=
  fold_left
    (fun acc d =>
       if jseqb (row_repo d) r then
         Some match acc with
              | Some g =>
                  mkStats (stat_repo g) (docCount g + 1)
                          (if textLtb (stat_lastUpdated g) (row_last_updated d)
                           then row_last_updated d else stat_lastUpdated g)
              | None => mkStats (row_repo d) 1 (row_last_updated d)
              end
       else acc)
    docs None.

(** *** Removal of duplicates *)

(** [self.findIndex(p)] from index [i] on; [None] stands for -1. *)
Fixpoint findIndexFrom {A : Type} (p : A -> bool) (i : nat) (l : list A)
  : option nat :=
  match l with
  | [] => None
  | x :: l' => if p x then Some i else findIndexFrom p (S i) l'
  end.

Definition findIndex {A : Type} (p : A -> bool) (l : list A) : option nat :=
  findIndexFrom p 0 l.

(** [arr.filter((x, index) => keep(x, index))] from index [i] on. *)
Fixpoint filterFrom {A : Type} (keep : A -> nat -> bool) (i : nat) (l : list A)
  : list A :=
  match l with
  | [] => []
  | x :: l' =>
      if keep x i then x :: filterFrom keep (S i) l' else filterFrom keep (S i) l'
  end.

(** [a.document.id === b.document.id]; two absent ids are equal. *)
Definition sameId (a b : SearchResult) : bool :=
  match id (document a), id (document b) with
  | Some i, Some j => Z.eqb i j
  | None, None => true
  | _, _ => false
  end.

(** [allResults.filter((result, index, self) => index ===
    self.findIndex((r) => r.document.id === result.document.id))]. *)
Definition uniqueById (allResults : list SearchResult) : list SearchResult :=
  filterFrom
    (fun result index =>
       match findIndex (fun r => sameId r result) allResults with
       | Some first => Nat.eqb index first
       | None => false
       end)
    0 allResults.

(** The results of find_dependencies: the searches of its five queries,
    three results each, without duplicates, sorted, the first ten. *)
Definition dependencyResults (db : Database) (queryEmbeddings : list (list float))
  (repos : option (list jsstring)) : list SearchResult :=
  let allResults :=
    flat_map (fun queryEmbedding => searchSimilar db queryEmbedding 3 repos)
             queryEmbeddings in
  slice0 10 (sortBySimilarity (uniqueById allResults)).

(** *** index_repo_docs *)

(** DocumentFile of github-client.ts. *)
Record DocumentFile : Type := mkFile {
  path : jsstring;
  fileContent : jsstring;
  sha : jsstring;
  lastModified : jsstring
}.

(** What the collaborators of the handler do at the [n]-th chunk it
    handles: the embedding that [generateEmbedding] returns ([None] when it
    throws), and whether the storage carries out the two statements of
    addDocument and the statement of deleteRepo. *)
Record Env : Type := mkEnv {
  embed : nat -> jsstring -> option (list float);
  docWrite : nat -> Substrate;
  embWrite : nat -> Substrate;
  deleteWrite : Substrate
}.

Record LoopState : Type := mkLoop {
  store : Database;
  calls : nat;
  totalChunks : nat
}.

(** The response of the handler, without its wording. *)
Inductive Response : Type :=
| AlreadyIndexed (existing : nat)
| NoDocumentation
| Indexed (processedFiles files chunks : nat)
| Failed.

Definition documentChunkOf (repoFullName : jsstring) (docFile : DocumentFile)
  (chunk : Embeddings.TextChunk) (embedding : list float) : DocumentChunk :=
  mkDoc None repoFullName (path docFile) (Embeddings.content chunk) embedding
        (mkMetadata (Some (Embeddings.title chunk)) (Embeddings.section chunk)
                    (lastModified docFile) (Some (sha docFile))).

(** The inner loop over the chunks of one file. The result says whether
    it ended without an exception; an exception ends the file. *)
Fixpoint indexChunks (env : Env) (repoFullName : jsstring)
  (docFile : DocumentFile) (chunks : list Embeddings.TextChunk) (st : LoopState)
  : LoopState * bool :=
  match chunks with
  | [] => (st, true)
  | chunk :: rest =>
      match embed env (calls st) (Embeddings.content chunk) with
      | None => (mkLoop (store st) (S (calls st)) (totalChunks st), false)
      | Some embedding =>
          match addDocument (docWrite env (calls st)) (embWrite env (calls st))
                  (documentChunkOf repoFullName docFile chunk embedding)
                  (store st) with
          | (db', Ok _) =>
              indexChunks env repoFullName docFile rest
                (mkLoop db' (S (calls st)) (S (totalChunks st)))
          | (db', Throw _) =>
              (mkLoop db' (S (calls st)) (totalChunks st), false)
          end
      end
  end.

Section Handler.

Variable parse : jsstring -> list Embeddings.Token.

(** The loop over the files; [processedFiles] counts the files that ended
    without an exception. *)
Fixpoint indexFiles (env : Env) (repoFullName : jsstring)
  (docFiles : list DocumentFile) (st : LoopState) (processedFiles : nat)
  : LoopState * nat :=
  match docFiles with
  | [] => (st, processedFiles)
  | docFile :: rest =>
      let (st', completed) :=
        indexChunks env repoFullName docFile
          (Embeddings.chunkMarkdownContent parse (fileContent docFile)
             (path docFile))
          st in
      indexFiles env repoFullName rest st'
        (if completed then S processedFiles else processedFiles)
  end.

(** The handler of index_repo_docs. [fetched] is what
    [githubClient.getDocumentationFiles(owner, repo, docsPath)] returns or
    throws. *)
Definition indexRepoDocs (env : Env) (fetched : Result (list DocumentFile))
  (owner repo : jsstring) (force : bool) (db : Database)
  : Database * Response :=
  let repoFullName := owner ++ js "/" ++ repo in
  let existingDocs := getDocumentsByRepo db repoFullName in
  if negb force && (0 <? length existingDocs)%nat then
    (db, AlreadyIndexed (length existingDocs))
  else
    match fetched with
    | Throw _ => (db, Failed)
    | Ok docFiles =>
        if (length docFiles =? 0)%nat then (db, NoDocumentation)
        else
          match (if force then deleteRepo (deleteWrite env) repoFullName db
                 else (db, Ok tt)) with
          | (db1, Throw _) => (db1, Failed)
          | (db1, Ok _) =>
              let (st, processedFiles) :=
                indexFiles env repoFullName docFiles (mkLoop db1 0 0) 0 in
              (store st, Indexed processedFiles (length docFiles) (totalChunks st))
          end
    end.

End Handler.

(** Collaborators that never fail and embed every text as [1, 0]. *)
Definition quietEnv : Env :=
  mkEnv (fun _ _ => Some [1; 0]%float) (fun _ => Executes) (fun _ => Executes)
        Executes.

Definition sampleFile : DocumentFile :=
  mkFile (js "docs/setup.md") (js "Run the installer.") (js "9e1b77d")
         (js "2024-03-01T00:00:00Z").

Definition sampleParse (_ : jsstring) : list Embeddings.Token :=
  Embeddings.paragraphTokens (js "Run the installer.").

End Tools.

(** ** index.ts: the indexer that runs at start-up *)

Module AutoIndex.

Import VectorStore Tools.

(** The fields of a Repository of github-client.ts that the indexer reads. *)
Record Repository : Type := mkRepository {
  fullName : jsstring;
  updatedAt : jsstring
}.

(** A value inside a template literal: [undefined] prints as its name. *)
Definition shown (v : option jsstring) : jsstring :=
  match v with
  | Some s => s
  | None => js "undefined"
  end.

(** [`${owner}/${repoName}`] after
    [const [owner, repoName] = repo.fullName.split("/")]. *)
Definition ownerOf (repo : Repository) : option jsstring :=
  nth_error (split 47 (fullName repo)) 0.

Definition repoNameOf (repo : Repository) : option jsstring :=
  nth_error (split 47 (fullName repo)) 1.

Definition indexedName (repo : Repository) : jsstring :=
  shown (ownerOf repo) ++ js "/" ++ shown (repoNameOf repo).

Section Indexer.

Variable parse : jsstring -> list Embeddings.Token.
Variable parseDate : jsstring -> option Z.

(** The loop over the files of one repository. There is no [try] inside
    it: the first exception ends the repository. The chunks of a file go
    through the same steps as in the handler of index_repo_docs; the
    counter of chunks in the state is not read here. *)
Fixpoint indexAll (env : Env) (repoFullName : jsstring)
  (files : list DocumentFile) (st : LoopState) : LoopState * bool :=
  match files with
  | [] => (st, true)
  | file :: rest =>
      let (st', completed) :=
        indexChunks env repoFullName file
          (Embeddings.chunkMarkdownContent parse (fileContent file) (path file))
          st in
      if completed then indexAll env repoFullName rest st' else (st', false)
  end.

(** The body of the loop over the repositories.
    [getDocumentationFiles] is the client's answer for an owner and a
    repository name. *)
Definition autoIndexRepo (env : Env)
  (getDocumentationFiles :
     option jsstring -> option jsstring -> Result (list DocumentFile))
  (repo : Repository) (st : LoopState) : LoopState :=
  match getDocumentationFiles (ownerOf repo) (repoNameOf repo) with
  | Throw _ => st
  | Ok files =>
      if (length files =? 0)%nat then st
      else
        let stats := getRepoStats (store st) in
        let existingRepo := Index.existingRepo stats (indexedName repo) in
        if Index.upToDate parseDate existingRepo (updatedAt repo) then st
        else fst (indexAll env (indexedName repo) files st)
  end.

(** [autoIndexRepositories]; [orgRepos] is what
    [githubClient.getOrganizationRepos] returns or throws. *)
Definition autoIndexRepositories (env : Env)
  (orgRepos : Result (list Repository))
  (getDocumentationFiles :
     option jsstring -> option jsstring -> Result (list DocumentFile))
  (db : Database) : Database :=
  match orgRepos with
  | Throw _ => db
  | Ok repos =>
      store (fold_left (fun st repo => autoIndexRepo env getDocumentationFiles repo st)
                       repos (mkLoop db 0 0))
  end.

End Indexer.

Definition sampleRepository : Repository :=
  mkRepository (js "a/b") (js "2024-02-01T00:00:00Z").

Definition sampleClient (owner repoName : option jsstring)
  : Result (list DocumentFile) :=
  Ok [sampleFile].

End AutoIndex.

(** ** What the headings of a token stream can name *)

Module Headings.

Import Embeddings.

(** The texts of the headings of a token stream that have their inline
    token behind them: those of the [h1] headings when [top] is set, those
    of the other headings when it is not. *)
Fixpoint headingTexts (top : bool) (tokens : list Token) : list jsstring :=
  match tokens with
  | [] => []
  | token :: rest =>
      (if jseqb (tok_type token) (js "heading_open")
          && Bool.eqb (jseqb (tok_tag token) (js "h1")) top
       then match rest with
            | headingToken :: _ =>
                if jseqb (tok_type headingToken) (js "inline")
                then [tok_content headingToken] else []
            | [] => []
            end
       else [])
      ++ headingTexts top rest
  end.

(** The tokens that one of the two branches of the loop takes up. *)
Definition handled (token : Token) : bool :=
  jseqb (tok_type token) (js "heading_open") || isBlockOpen token.

Definition isHeading (token : Token) : bool :=
  jseqb (tok_type token) (js "heading_open").

(** A chunk whose title is among [titles] and whose section, when it has
    one, is a non-empty text among [sections]. *)
Definition attributedChunk (titles sections : list jsstring) (c : TextChunk)
  : Prop :=
  In (title c) titles
  /\ match section c with
     | None => True
     | Some s => s <> [] /\ In s sections
     end.

(** The loop invariant behind the attribution of the chunks. *)
Definition attributed (titles sections : list jsstring) (st : Acc) : Prop :=
  In (currentTitle st) titles
  /\ (currentSection st = [] \/ In (currentSection st) sections)
  /\ Forall (attributedChunk titles sections) (chunks st).

(** The token of a fenced code block, which no branch of the loop takes up. *)
Definition fenceTokens (code : jsstring) : list Token :=
  [mkToken (js "fence") (js "code") code].

End Headings.

(** ** EmbeddingsService: the requests to the embeddings provider *)

Module EmbeddingsApi.

Set Warnings "-abstract-large-number".

(** The [input] of a request: one text or an array of texts. *)
Inductive Input : Type :=
| One (text : jsstring)
| Many (texts : list jsstring).

(** [openai.embeddings.create] is outside the program: the embeddings of
    the items of [response.data] for the [n]-th request, [None] when the
    request, or the reading of the items of its answer, throws. *)
Definition Provider : Type := nat -> Input -> option (list (list float)).

(** A computation that sends requests: the requests sent so far are
    threaded through; the result is [None] when the method throws. *)
Definition Api (A : Type) : Type := list Input -> list Input * option A.

Definition create (provider : Provider) (input : Input)
  : Api (list (list float)) :=
  fun sent => (sent ++ [input], provider (length sent) input).

(** [response.data[0].embedding]; without a first item the property
    access throws, and the [catch] turns every exception into the
    method's own. *)
Definition generateEmbedding (provider : Provider) (text : jsstring)
  : Api (list float) :=
  fun sent =>
    match create provider (One (substring0 8000 text)) sent with
    | (sent', Some (embedding :: _)) => (sent', Some embedding)
    | (sent', _) => (sent', None)
    end.

(** The [for] loop of generateEmbeddings at index [i]. It runs once for
    every hundred texts; [fuel] bounds the number of rounds. *)
Fixpoint batchLoop (fuel : nat) (provider : Provider) (texts : list jsstring)
  (i : nat) (embeddings : list (list float)) : Api (list (list float)) :=
  fun sent =>
    match fuel with
    | O => (sent, None)
    | S fuel' =>
        if (i <? length texts)%nat then
          let batch := map (substring0 8000) (firstn 100 (skipn i texts)) in
          match create provider (Many batch) sent with
          | (sent', Some data) =>
              batchLoop fuel' provider texts (i + 100) (embeddings ++ data) sent'
          | (sent', None) => (sent', None)
          end
        else (sent, Some embeddings)
    end.

Definition generateEmbeddings (provider : Provider) (texts : list jsstring)
  : Api (list (list float)) :=
  batchLoop (S (length texts)) provider texts 0 [].

Definition createQueryEmbedding (provider : Provider) (query : jsstring)
  : Api (list float) :=
  generateEmbedding provider (js "Documentation search: " ++ query).

(** A batch as the provider is meant to see it. *)
Definition withinLimits (batch : list jsstring) : Prop :=
  1 <= length batch <= 100 /\ Forall (fun text => length text <= 8000) batch.

(** A provider that answers every text with the same embedding, and one
    that is down. *)
Definition constantProvider : Provider :=
  fun _ input =>
    match input with
    | One _ => Some [[1; 0]%float]
    | Many texts => Some (map (fun _ => [1; 0]%float) texts)
    end.

Definition downProvider : Provider := fun _ _ => None.

End EmbeddingsApi.

(* ================================================================== *)
(** * Part II: properties                                              *)
(* ================================================================== *)

(** ** Strings *)

Module JSStringFacts.

Lemma jseqb_refl (a : jsstring) : jseqb a a = true.
Proof.
  induction a as [|x a IH]; simpl; [reflexivity|].
  now rewrite N.eqb_refl, IH.
Qed.

Lemma jseqb_eq (a b : jsstring) : jseqb a b = true <-> a = b.
Proof.
  split.
  - revert b; induction a as [|x a IH]; intros [|y b]; simpl; try discriminate.
    + reflexivity.
    + intros H. apply andb_true_iff in H as [Hx Hab].
      apply N.eqb_eq in Hx. now rewrite Hx, (IH b Hab).
  - intros ->. apply jseqb_refl.
Qed.

Lemma jseqb_neq (a b : jsstring) : jseqb a b = false <-> a <> b.
Proof.
  split.
  - intros H E. apply jseqb_eq in E. congruence.
  - intros H. destruct (jseqb a b) eqn:E; [|reflexivity].
    apply jseqb_eq in E. contradiction.
Qed.

Lemma trimStart_length (s : jsstring) : length (trimStart s) <= length s.
Proof.
  induction s as [|c s IH]; simpl; [lia|].
  destruct (isWhiteSpace c); simpl; lia.
Qed.

Lemma trim_length (s : jsstring) : length (trim s) <= length s.
Proof.
  unfold trim, trimEnd. rewrite length_rev.
  etransitivity; [apply trimStart_length|].
  rewrite length_rev. apply trimStart_length.
Qed.

Lemma trimStart_white_app (ws s : jsstring) :
  forallb isWhiteSpace ws = true -> trimStart (ws ++ s) = trimStart s.
Proof.
  induction ws as [|c ws IH]; simpl; [reflexivity|].
  intros H. apply andb_true_iff in H as [Hc Hws]. now rewrite Hc, IH.
Qed.

Lemma trim_white_app (ws s : jsstring) :
  forallb isWhiteSpace ws = true -> trim (ws ++ s) = trim s.
Proof.
  intros H. unfold trim. now rewrite trimStart_white_app.
Qed.

Lemma trimStart_nil_white (s : jsstring) :
  trimStart s = [] -> forallb isWhiteSpace s = true.
Proof.
  induction s as [|c s IH]; simpl; [reflexivity|].
  destruct (isWhiteSpace c); [exact IH|discriminate].
Qed.

Lemma trimStart_head (s : jsstring) (c : N) (t : jsstring) :
  trimStart s = c :: t -> isWhiteSpace c = false.
Proof.
  induction s as [|x s IH]; simpl; [discriminate|].
  destruct (isWhiteSpace x) eqn:E; [exact IH|].
  intros H. injection H as -> _. exact E.
Qed.

Lemma trimStart_fixed (c : N) (t : jsstring) :
  isWhiteSpace c = false -> trimStart (c :: t) = c :: t.
Proof. intros H. simpl. now rewrite H. Qed.

Lemma trimStart_idem (s : jsstring) : trimStart (trimStart s) = trimStart s.
Proof.
  destruct (trimStart s) as [|c t] eqn:E; [reflexivity|].
  apply trimStart_fixed. exact (trimStart_head s c t E).
Qed.

(** Trimming the start of a string that ends in a visible character
    keeps that character. *)
Lemma trimStart_snoc (l : jsstring) (c : N) :
  isWhiteSpace c = false -> exists l', trimStart (l ++ [c]) = l' ++ [c].
Proof.
  intros Hc. induction l as [|x l [l' IH]]; simpl.
  - exists []. now rewrite Hc.
  - destruct (isWhiteSpace x).
    + exists l'. exact IH.
    + exists (x :: l). reflexivity.
Qed.

Lemma trimEnd_cons (c : N) (t : jsstring) :
  isWhiteSpace c = false -> exists t', trimEnd (c :: t) = c :: t'.
Proof.
  intros Hc. unfold trimEnd. simpl.
  destruct (trimStart_snoc (rev t) c Hc) as [l' E].
  exists (rev l'). rewrite E, rev_app_distr. reflexivity.
Qed.

Lemma trimEnd_idem (s : jsstring) : trimEnd (trimEnd s) = trimEnd s.
Proof.
  unfold trimEnd. now rewrite rev_involutive, trimStart_idem.
Qed.

Lemma trim_idem (s : jsstring) : trim (trim s) = trim s.
Proof.
  unfold trim. destruct (trimStart s) as [|c t] eqn:E.
  - reflexivity.
  - pose proof (trimStart_head s c t E) as Hc.
    destruct (trimEnd_cons c t Hc) as [t' Et].
    rewrite Et, (trimStart_fixed c t' Hc), <- Et. apply trimEnd_idem.
Qed.

Lemma trim_nil_white (s : jsstring) :
  trim s = [] -> forallb isWhiteSpace s = true.
Proof.
  unfold trim. intros H. apply trimStart_nil_white.
  destruct (trimStart s) as [|c t] eqn:E; [reflexivity|].
  destruct (trimEnd_cons c t (trimStart_head s c t E)) as [t' Et]. congruence.
Qed.

Lemma truthy_false (s : jsstring) : truthy s = false <-> s = [].
Proof. destruct s; simpl; split; congruence. Qed.






End JSStringFacts.

(** ** The chunker *)

Module EmbeddingsFacts.

Import Embeddings JSStringFacts.

Lemma pieces_cons (token : Token) (rest : list Token) :
  pieces (token :: rest) =
  (if jseqb (tok_type token) (js "heading_open") then
     match rest with
     | h :: _ => if jseqb (tok_type h) (js "inline") then [headingLine h] else []
     | [] => []
     end
   else if isBlockOpen token then [contentToAdd token rest]
   else [])
  ++ pieces rest.
Proof. reflexivity. Qed.

Ltac projections :=
  cbn [chunks currentSection currentContent currentTitle content title section].

(** After the flush that a heading triggers the accumulator holds white
    space at most. *)
Lemma heading_flush_bounded (bound : nat) (st : Acc) :
  sizeBounded bound st ->
  let st1 := if truthy (trim (currentContent st))
             then mkAcc (pushCurrent st) (currentSection st) [] (currentTitle st)
             else st in
  Forall (fun c => length (content c) <= bound) (chunks st1)
  /\ trim (currentContent st1) = [].
Proof.
  intros [Hcs Hcc]. destruct (truthy (trim (currentContent st))) eqn:E; projections.
  - split; [|reflexivity]. unfold pushCurrent. apply Forall_app. split; [exact Hcs|].
    constructor; [exact Hcc|constructor].
  - split; [exact Hcs|]. now apply truthy_false.
Qed.

Lemma step_sizeBounded (M : nat) (token : Token) (rest : list Token) (st : Acc) :
  (forall p, In p (pieces (token :: rest)) -> length p <= M) ->
  sizeBounded (Nat.max 1500 M) st ->
  sizeBounded (Nat.max 1500 M) (step token rest st).
Proof.
  intros Hp Hst. rewrite pieces_cons in Hp. unfold step.
  destruct (jseqb (tok_type token) (js "heading_open")).
  - destruct (heading_flush_bounded _ st Hst) as [Hcs Hnil].
    set (st1 := if truthy (trim (currentContent st))
                then mkAcc (pushCurrent st) (currentSection st) [] (currentTitle st)
                else st) in *.
    destruct rest as [|h rest']; [split; [exact Hcs|rewrite Hnil; simpl; lia]|].
    destruct (jseqb (tok_type h) (js "inline")).
    + assert (Hh : length (headingLine h) <= M)
        by (apply Hp; apply in_or_app; left; now left).
      assert (Htrim : length (trim (currentContent st1 ++ headingLine h))
                      <= Nat.max 1500 M).
      { rewrite trim_white_app by (now apply trim_nil_white).
        pose proof (trim_length (headingLine h)). lia. }
      destruct (jseqb (tok_tag token) (js "h1")); projections;
        (split; [exact Hcs|exact Htrim]).
    + split; [exact Hcs|rewrite Hnil; simpl; lia].
  - destruct (isBlockOpen token); [|exact Hst].
    assert (Hadd : length (contentToAdd token rest) <= M)
      by (apply Hp; apply in_or_app; left; now left).
    destruct Hst as [Hcs Hcc].
    destruct (1500 <? length (currentContent st)
                      + length (contentToAdd token rest)) eqn:Eguard.
    + split; projections.
      * destruct (truthy (trim (currentContent st))); [|exact Hcs].
        unfold pushCurrent. apply Forall_app. split; [exact Hcs|].
        constructor; [exact Hcc|constructor].
      * pose proof (trim_length (contentToAdd token rest)). lia.
    + apply Nat.ltb_ge in Eguard. split; projections; [exact Hcs|].
      pose proof (trim_length (currentContent st ++ contentToAdd token rest)) as Ht.
      rewrite length_app in Ht. lia.
Qed.

Lemma loop_sizeBounded (M : nat) (tokens : list Token) :
  forall st,
    (forall p, In p (pieces tokens) -> length p <= M) ->
    sizeBounded (Nat.max 1500 M) st ->
    sizeBounded (Nat.max 1500 M) (loop tokens st).
Proof.
  induction tokens as [|token rest IH]; intros st Hp Hst; simpl; [exact Hst|].
  apply IH.
  - intros p Hin. apply Hp. rewrite pieces_cons. apply in_or_app. now right.
  - now apply step_sizeBounded.
Qed.

Lemma structuredChunks_bounded (M : nat) (tokens : list Token) (filePath : jsstring) :
  (forall p, In p (pieces tokens) -> length p <= M) ->
  Forall (fun c => length (content c) <= Nat.max 1500 M)
         (structuredChunks tokens filePath).
Proof.
  intros Hp. unfold structuredChunks.
  destruct (loop_sizeBounded M tokens
              (mkAcc [] [] [] (extractTitleFromPath filePath)) Hp) as [Hcs Hcc].
  { split; [constructor|simpl; lia]. }
  destruct (truthy _); [|exact Hcs].
  unfold pushCurrent. apply Forall_app. split; [exact Hcs|].
  constructor; [exact Hcc|constructor].
Qed.

(** C4, as the code has it: a chunk is at most 1500 characters long when
    no single piece of text the loop appends (a heading line, the text of a
    block element with its separator) is longer than that, and in general
    at most as long as the longest such piece; the chunk of the fallback
    path is exactly the first 1500 characters of the raw input. *)
Theorem chunk_size_bound (parse : jsstring -> list Token)
  (raw filePath : jsstring) (M : nat) :
  (forall p, In p (pieces (parse raw)) -> length p <= M) ->
  (forall c, In c (chunkMarkdownContent parse raw filePath) ->
             length (content c) <= Nat.max 1500 M)
  /\ (structuredChunks (parse raw) filePath = [] ->
      chunkMarkdownContent parse raw filePath
      = [mkChunk (firstn 1500 raw) (finalTitle (parse raw) filePath) None]).
Proof.
  intros Hp. pose proof (structuredChunks_bounded M (parse raw) filePath Hp) as Hb.
  unfold chunkMarkdownContent. split.
  - intros c Hin. destruct (structuredChunks (parse raw) filePath) as [|c0 cs].
    + destruct Hin as [<-|[]]. projections. unfold substring0.
      rewrite length_firstn. lia.
    + rewrite Forall_forall in Hb. now apply Hb.
  - intros ->. reflexivity.
Qed.

Lemma chunk_size_bound_witness :
  (forall p, In p (pieces (listItemTokens (js "item"))) -> length p <= 1500)
  /\ (forall c, In c (chunkMarkdownContent (fun _ => listItemTokens (js "item"))
                        (js "- item") (js "docs/a.md")) ->
                length (content c) <= Nat.max 1500 1500).
Proof.
  assert (H : forall p, In p (pieces (listItemTokens (js "item"))) ->
                        length p <= 1500).
  { intros p Hin. vm_compute in Hin.
    destruct Hin as [<-|[<-|[]]]; vm_compute; repeat constructor. }
  split; [exact H|].
  exact (proj1 (chunk_size_bound (fun _ => listItemTokens (js "item"))
                  (js "- item") (js "docs/a.md") 1500 H)).
Defined.

(** C4 as stated fails: a paragraph of 1600 letters is one piece, so the
    chunker, not on its fallback path, produces a chunk of 1600
    characters. *)
Lemma chunk_longer_than_1500 :
  structuredChunks (paragraphTokens longLine) (js "docs/a.md") <> []
  /\ exists c,
       In c (chunkMarkdownContent (fun _ => paragraphTokens longLine) longLine
               (js "docs/a.md"))
       /\ length (content c) = 1600.
Proof.
  split.
  - vm_compute. discriminate.
  - exists (mkChunk longLine (js "a") None). split; [|reflexivity].
    vm_compute. left. reflexivity.
Qed.

(** *** Visible content *)

Lemma pushCurrent_visible (st : Acc) :
  allVisible (chunks st) -> truthy (trim (currentContent st)) = true ->
  allVisible (pushCurrent st).
Proof.
  intros Hcs Ht. unfold allVisible, pushCurrent. apply Forall_app.
  split; [exact Hcs|]. constructor; [|constructor]. projections.
  rewrite trim_idem. intros E. rewrite E in Ht. discriminate.
Qed.

Lemma step_visible (token : Token) (rest : list Token) (st : Acc) :
  allVisible (chunks st) -> allVisible (chunks (step token rest st)).
Proof.
  intros Hcs. unfold step.
  destruct (jseqb (tok_type token) (js "heading_open")).
  - assert (H1 : allVisible
             (chunks (if truthy (trim (currentContent st))
                      then mkAcc (pushCurrent st) (currentSection st) []
                                 (currentTitle st)
                      else st))).
    { destruct (truthy (trim (currentContent st))) eqn:E; projections;
        [now apply pushCurrent_visible|exact Hcs]. }
    destruct rest as [|h rest']; [exact H1|].
    destruct (jseqb (tok_type h) (js "inline")); [|exact H1].
    destruct (jseqb (tok_tag token) (js "h1")); projections; exact H1.
  - destruct (isBlockOpen token); [|exact Hcs].
    destruct (1500 <? _); projections; [|exact Hcs].
    destruct (truthy (trim (currentContent st))) eqn:E;
      [now apply pushCurrent_visible|exact Hcs].
Qed.

Lemma loop_visible (tokens : list Token) :
  forall st, allVisible (chunks st) -> allVisible (chunks (loop tokens st)).
Proof.
  induction tokens as [|token rest IH]; intros st Hst; simpl; [exact Hst|].
  apply IH. now apply step_visible.
Qed.

(** Every chunk that the loop or the final push produces has content
    that is not empty after trimming. *)
Lemma structuredChunks_visible (tokens : list Token) (filePath : jsstring) :
  allVisible (structuredChunks tokens filePath).
Proof.
  unfold structuredChunks.
  set (st := loop tokens (mkAcc [] [] [] (extractTitleFromPath filePath))).
  assert (Hst : allVisible (chunks st)) by (apply loop_visible; constructor).
  destruct (truthy (trim (currentContent st))) eqn:E;
    [now apply pushCurrent_visible|exact Hst].
Qed.

(** Off the fallback path no chunk is empty after trimming. *)
Lemma chunks_visible_off_fallback (parse : jsstring -> list Token)
  (raw filePath : jsstring) :
  structuredChunks (parse raw) filePath <> [] ->
  allVisible (chunkMarkdownContent parse raw filePath).
Proof.
  intros Hne. unfold chunkMarkdownContent.
  pose proof (structuredChunks_visible (parse raw) filePath) as Hv.
  destruct (structuredChunks (parse raw) filePath); [contradiction|exact Hv].
Qed.

(** C8 at a document that holds a line break only, for which markdown-it
    returns no token: the fallback path pushes the raw text unchecked, and
    the chunk is empty after trimming. *)
Theorem blank_document_chunk :
  chunkMarkdownContent (fun _ => []) [10%N] (js "docs/empty.md")
  = [mkChunk [10%N] (js "empty") None]
  /\ trim [10%N] = [].
Proof. split; reflexivity. Qed.

(** *** Text of list items and block quotes *)

(** C9 at the documents ["- item"] and ["> quote"]: the text of the list
    item is appended at [list_item_open] and again at the [paragraph_open]
    inside it, and likewise for the block quote, so it is twice in the
    chunk. *)
Theorem nested_text_appended_twice :
  chunkMarkdownContent (fun _ => listItemTokens (js "item")) (js "- item")
    (js "docs/a.md")
  = [mkChunk (js "item " ++ lf2 ++ js "item") (js "a") None]
  /\ chunkMarkdownContent (fun _ => blockquoteTokens (js "quote")) (js "> quote")
       (js "docs/a.md")
     = [mkChunk (js "quote " ++ lf2 ++ js "quote") (js "a") None].
Proof. split; vm_compute; reflexivity. Qed.

(** A paragraph that is not nested is appended once. *)
Lemma paragraph_text_appended_once :
  chunkMarkdownContent (fun _ => paragraphTokens (js "Run the installer."))
    (js "Run the installer.") (js "docs/a.md")
  = [mkChunk (js "Run the installer.") (js "a") None].
Proof. vm_compute. reflexivity. Qed.

(** *** The default title *)







End EmbeddingsFacts.

(** ** The store *)

Module VectorStoreFacts.

Import VectorStore JSStringFacts.

(** *** Sorting *)

Lemma insertSorted_perm {A : Type} (after : A -> A -> bool) (x : A) (l : list A) :
  Permutation (x :: l) (insertSorted after x l).
Proof.
  induction l as [|y l IH]; simpl; [reflexivity|].
  destruct (after y x); [reflexivity|].
  rewrite perm_swap. now constructor.
Qed.

Lemma fold_insert_perm {A : Type} (after : A -> A -> bool) (l : list A) :
  forall acc,
    Permutation (l ++ acc)
      (fold_left (fun acc x => insertSorted after x acc) l acc).
Proof.
  induction l as [|x l IH]; intros acc; simpl; [reflexivity|].
  rewrite <- IH. rewrite <- (insertSorted_perm after x acc).
  apply Permutation_middle.
Qed.

Lemma sortBy_perm {A : Type} (after : A -> A -> bool) (l : list A) :
  Permutation l (sortBy after l).
Proof.
  unfold sortBy. rewrite <- fold_insert_perm. now rewrite app_nil_r.
Qed.


Lemma sortBy_In {A : Type} (after : A -> A -> bool) (l : list A) (x : A) :
  In x (sortBy after l) <-> In x l.
Proof.
  split; apply Permutation_in; [symmetry|]; apply sortBy_perm.
Qed.


(** *** Row ids *)

Lemma maxRowid_ge {A : Type} (rowid : A -> Z) (rows : list A) (x : A) :
  In x rows -> (rowid x <= maxRowid rowid rows)%Z.
Proof.
  unfold maxRowid. induction rows as [|y rows IH]; simpl; [contradiction|].
  intros [->|Hin]; [lia|]. specialize (IH Hin). lia.
Qed.

Lemma nextDocumentId_above (db : Database) :
  (documents_seq db < nextDocumentId db)%Z
  /\ forall d, In d (documents db) -> (row_id d < nextDocumentId db)%Z.
Proof.
  unfold nextDocumentId. split; [lia|].
  intros d Hin. pose proof (maxRowid_ge row_id (documents db) d Hin). lia.
Qed.

(** Filtering rows keeps their ids distinct. *)
Lemma distinct_ids_filter {Row : Type} (rowid : Row -> Z) (keep : Row -> bool)
  (rows : list Row) (Hids : NoDup (map rowid rows)) :
  NoDup (map rowid (filter keep rows)).
Proof.
  revert Hids. induction rows as [|x rows IH]; cbn [filter map]; intros Hids.
  - exact Hids.
  - apply NoDup_cons_iff in Hids as [Hfresh Hrest]. specialize (IH Hrest).
    destruct (keep x); [|exact IH].
    cbn [map]. apply NoDup_cons; [|exact IH].
    rewrite in_map_iff. intros [y [Ey Hy]].
    apply Hfresh. rewrite <- Ey. apply in_map.
    apply filter_In in Hy. exact (proj1 Hy).
Qed.

Lemma NoDup_map_inj {A B : Type} (f : A -> B) (l : list A) (x y : A) :
  NoDup (map f l) -> In x l -> In y l -> f x = f y -> x = y.
Proof.
  induction l as [|z l IH]; simpl; [contradiction|].
  intros H Hx Hy E. inversion H as [|? ? Hnotin Hnd]; subst.
  destruct Hx as [->|Hx], Hy as [->|Hy]; trivial.
  - exfalso. apply Hnotin. rewrite E. now apply in_map.
  - exfalso. apply Hnotin. rewrite <- E. now apply in_map.
  - now apply IH.
Qed.

(** *** ON DELETE CASCADE *)

Lemma cascade_incl (fk : bool) (removed : list DocRow) (es : list EmbRow)
  (e : EmbRow) :
  In e (cascade fk removed es) -> In e es.
Proof.
  unfold cascade. destruct fk; [|trivial].
  intros H. apply filter_In in H. tauto.
Qed.

Lemma cascade_true_spec (removed : list DocRow) (es : list EmbRow) (e : EmbRow) :
  In e (cascade true removed es) <->
  In e es /\ forall d, In d removed -> emb_document_id e <> row_id d.
Proof.
  unfold cascade. rewrite filter_In, negb_true_iff. split; intros [Hin H]; split;
    trivial.
  - intros d Hd E. assert (X : existsb
        (fun d0 => Z.eqb (emb_document_id e) (row_id d0)) removed = true).
    { apply existsb_exists. exists d. split; [exact Hd|now apply Z.eqb_eq]. }
    congruence.
  - destruct (existsb _ removed) eqn:X; [|reflexivity].
    apply existsb_exists in X as [d [Hd E]]. apply Z.eqb_eq in E.
    exfalso. exact (H d Hd E).
Qed.

(** *** The outcomes of addDocument *)

Lemma addDocument_without_hash (o1 o2 : Substrate) (doc : DocumentChunk)
  (db : Database) :
  commitHash (metadata doc) = None ->
  addDocument o1 o2 doc db = (db, Throw TypeError).
Proof. intros H. unfold addDocument. now rewrite H. Qed.

Lemma addDocument_first_fails (o2 : Substrate) (doc : DocumentChunk)
  (db : Database) :
  fst (addDocument Fails o2 doc db) = db
  /\ snd (addDocument Fails o2 doc db)
     = Throw (match commitHash (metadata doc) with
              | Some _ => SqliteError | None => TypeError end).
Proof. unfold addDocument. destruct (commitHash (metadata doc)); split; reflexivity. Qed.

Lemma addDocument_second_fails (doc : DocumentChunk) (h : jsstring)
  (db : Database) :
  commitHash (metadata doc) = Some h ->
  addDocument Executes Fails doc db
  = (afterDocumentWrite doc h db, Throw SqliteError).
Proof. intros H. unfold addDocument. rewrite H. reflexivity. Qed.

Lemma foreign_key_holds (doc : DocumentChunk) (h : jsstring) (db : Database) :
  existsb (fun d => Z.eqb (row_id d) (nextDocumentId db))
          (documents (afterDocumentWrite doc h db)) = true.
Proof.
  unfold afterDocumentWrite, insertOrReplaceDocument. cbn [fst documents].
  rewrite existsb_app. cbn [existsb row_id]. rewrite Z.eqb_refl.
  now rewrite orb_true_r.
Qed.

Lemma insertEmbedding_after (doc : DocumentChunk) (h : jsstring)
  (db : Database) (blob : list float) :
  snd (insertEmbedding (nextDocumentId db) blob (afterDocumentWrite doc h db))
  = Ok tt.
Proof.
  unfold insertEmbedding. now rewrite foreign_key_holds, andb_false_r.
Qed.

Lemma addDocument_done (doc : DocumentChunk) (h : jsstring) (db : Database) :
  commitHash (metadata doc) = Some h ->
  addDocument Executes Executes doc db
  = (afterUpsert doc h db, Ok (nextDocumentId db)).
Proof.
  intros H. unfold addDocument. rewrite H. unfold bind, run, afterUpsert.
  change (insertOrReplaceDocument (repo doc) (filePath doc) (content doc)
            (metadata doc) (lastUpdated (metadata doc)) h db)
    with (afterDocumentWrite doc h db, Ok (nextDocumentId db)).
  cbv iota beta.
  pose proof (insertEmbedding_after doc h db (toFloat32Array (embedding doc))) as E.
  destruct (insertEmbedding _ _ _) as [db2 r]. simpl in E. subst r. reflexivity.
Qed.

Lemma afterUpsert_documents (doc : DocumentChunk) (h : jsstring) (db : Database) :
  documents (afterUpsert doc h db)
  = filter (fun d => negb (conflictsWith doc d)) (documents db)
    ++ [documentRow (nextDocumentId db) doc h].
Proof.
  unfold afterUpsert, insertEmbedding. rewrite foreign_key_holds, andb_false_r.
  reflexivity.
Qed.

Lemma afterUpsert_embeddings (doc : DocumentChunk) (h : jsstring) (db : Database) :
  exists k,
    embeddings (afterUpsert doc h db)
    = cascade (foreign_keys db) (filter (conflictsWith doc) (documents db))
              (embeddings db)
      ++ [mkEmbRow k (nextDocumentId db) (toFloat32Array (embedding doc))].
Proof.
  unfold afterUpsert, insertEmbedding. rewrite foreign_key_holds, andb_false_r.
  eexists. reflexivity.
Qed.

Lemma afterUpsert_rest (doc : DocumentChunk) (h : jsstring) (db : Database) :
  documents_seq (afterUpsert doc h db) = nextDocumentId db
  /\ foreign_keys (afterUpsert doc h db) = foreign_keys db.
Proof.
  unfold afterUpsert, insertEmbedding. rewrite foreign_key_holds, andb_false_r.
  split; reflexivity.
Qed.

(** *** The states an operation can leave *)

Lemma addDocument_state (o1 o2 : Substrate) (doc : DocumentChunk) (db : Database) :
  fst (addDocument o1 o2 doc db) = db
  \/ exists h, commitHash (metadata doc) = Some h
               /\ (fst (addDocument o1 o2 doc db) = afterDocumentWrite doc h db
                   \/ fst (addDocument o1 o2 doc db) = afterUpsert doc h db).
Proof.
  destruct (commitHash (metadata doc)) as [h|] eqn:H.
  - destruct o1.
    + right. exists h. split; [reflexivity|]. destruct o2.
      * right. now rewrite (addDocument_done doc h db H).
      * left. now rewrite (addDocument_second_fails doc h db H).
    + left. apply addDocument_first_fails.
  - left. now rewrite addDocument_without_hash.
Qed.

Lemma deleteRepo_state (o : Substrate) (r : jsstring) (db : Database) :
  fst (deleteRepo o r db) = db
  \/ fst (deleteRepo o r db) = fst (deleteDocumentsWhereRepo r db).
Proof. destruct o; [right|left]; reflexivity. Qed.

Lemma afterDocumentWrite_documents (doc : DocumentChunk) (h : jsstring)
  (db : Database) :
  documents (afterDocumentWrite doc h db)
  = filter (fun d => negb (conflictsWith doc d)) (documents db)
    ++ [documentRow (nextDocumentId db) doc h].
Proof. reflexivity. Qed.

Lemma afterDocumentWrite_embeddings (doc : DocumentChunk) (h : jsstring)
  (db : Database) :
  embeddings (afterDocumentWrite doc h db)
  = cascade (foreign_keys db) (filter (conflictsWith doc) (documents db))
            (embeddings db).
Proof. reflexivity. Qed.

(** *** Preservation of the invariants *)

Lemma wellFormed_open (fk : bool) : wellFormed (open fk).
Proof. repeat split; simpl; try constructor; contradiction. Qed.

Lemma wellFormed_afterDocumentWrite (doc : DocumentChunk) (h : jsstring)
  (db : Database) :
  wellFormed db -> wellFormed (afterDocumentWrite doc h db).
Proof.
  intros [Hnd [Hd He]].
  destruct (nextDocumentId_above db) as [Hseq Hids].
  unfold wellFormed. rewrite afterDocumentWrite_documents,
    afterDocumentWrite_embeddings.
  change (documents_seq (afterDocumentWrite doc h db)) with (nextDocumentId db).
  repeat split.
  - rewrite map_app. apply NoDup_app.
    + now apply distinct_ids_filter.
    + repeat constructor. intros [].
    + intros a Ha [<-|[]]. apply in_map_iff in Ha as [d [E Hin]].
      apply filter_In in Hin as [Hin _]. specialize (Hids d Hin).
      cbn [documentRow row_id] in E. lia.
  - intros d Hin. apply in_app_or in Hin as [Hin|[<-|[]]].
    + apply filter_In in Hin as [Hin _]. specialize (Hids d Hin). lia.
    + cbn [documentRow row_id]. lia.
  - intros e Hin. apply cascade_incl in Hin. specialize (He e Hin). lia.
Qed.

Lemma wellFormed_afterUpsert (doc : DocumentChunk) (h : jsstring) (db : Database) :
  wellFormed db -> wellFormed (afterUpsert doc h db).
Proof.
  intros Hwf. destruct (wellFormed_afterDocumentWrite doc h db Hwf) as [Hnd [Hd He]].
  destruct (afterUpsert_embeddings doc h db) as [k Ek].
  destruct (afterUpsert_rest doc h db) as [Eseq _].
  unfold wellFormed. rewrite afterUpsert_documents, Ek, Eseq.
  rewrite afterDocumentWrite_documents in Hnd, Hd.
  rewrite afterDocumentWrite_embeddings in He.
  change (documents_seq (afterDocumentWrite doc h db))
    with (nextDocumentId db) in Hd, He.
  repeat split; trivial.
  intros e Hin. apply in_app_or in Hin as [Hin|[<-|[]]]; [now apply He|].
  cbn [emb_document_id]. lia.
Qed.

Lemma wellFormed_delete (r : jsstring) (db : Database) :
  wellFormed db -> wellFormed (fst (deleteDocumentsWhereRepo r db)).
Proof.
  intros [Hnd [Hd He]]. unfold wellFormed, deleteDocumentsWhereRepo.
  cbn [fst documents embeddings documents_seq]. repeat split.
  - now apply distinct_ids_filter.
  - intros d Hin. apply filter_In in Hin as [Hin _]. now apply Hd.
  - intros e Hin. apply cascade_incl in Hin. now apply He.
Qed.

Lemma noOrphan_afterDocumentWrite (doc : DocumentChunk) (h : jsstring)
  (db : Database) :
  foreign_keys db = true -> noOrphanEmbedding db ->
  noOrphanEmbedding (afterDocumentWrite doc h db).
Proof.
  intros Hfk Hno e Hin.
  rewrite afterDocumentWrite_embeddings, Hfk in Hin.
  apply cascade_true_spec in Hin as [Hin Hkeep].
  destruct (Hno e Hin) as [d [Hd E]]. exists d. split; [|exact E].
  rewrite afterDocumentWrite_documents. apply in_or_app. left.
  apply filter_In. split; [exact Hd|].
  destruct (conflictsWith doc d) eqn:C; [|reflexivity].
  exfalso. apply (Hkeep d); [|now symmetry]. apply filter_In. now split.
Qed.

Lemma noOrphan_afterUpsert (doc : DocumentChunk) (h : jsstring) (db : Database) :
  foreign_keys db = true -> noOrphanEmbedding db ->
  noOrphanEmbedding (afterUpsert doc h db).
Proof.
  intros Hfk Hno e Hin.
  destruct (afterUpsert_embeddings doc h db) as [k Ek].
  rewrite Ek in Hin. rewrite afterUpsert_documents.
  rewrite <- afterDocumentWrite_documents.
  apply in_app_or in Hin as [Hin|[<-|[]]].
  - apply (noOrphan_afterDocumentWrite doc h db Hfk Hno). exact Hin.
  - exists (documentRow (nextDocumentId db) doc h). split; [|reflexivity].
    rewrite afterDocumentWrite_documents. apply in_or_app. right. now left.
Qed.

Lemma noOrphan_delete (r : jsstring) (db : Database) :
  foreign_keys db = true -> noOrphanEmbedding db ->
  noOrphanEmbedding (fst (deleteDocumentsWhereRepo r db)).
Proof.
  intros Hfk Hno e Hin. unfold deleteDocumentsWhereRepo in *.
  cbn [fst documents embeddings] in *. rewrite Hfk in Hin.
  apply cascade_true_spec in Hin as [Hin Hkeep].
  destruct (Hno e Hin) as [d [Hd E]]. exists d. split; [|exact E].
  apply filter_In. split; [exact Hd|].
  destruct (jseqb (row_repo d) r) eqn:C; [|reflexivity].
  exfalso. apply (Hkeep d); [|now symmetry]. apply filter_In. now split.
Qed.

Lemma foreign_keys_afterDocumentWrite (doc : DocumentChunk) (h : jsstring)
  (db : Database) :
  foreign_keys (afterDocumentWrite doc h db) = foreign_keys db.
Proof. reflexivity. Qed.

(** Every store the operations produce is well formed and keeps the
    pragma it was opened with. *)
Lemma reachable_wellFormed (fk : bool) (db : Database) :
  reachable fk db -> wellFormed db /\ foreign_keys db = fk.
Proof.
  induction 1 as [|db o1 o2 doc _ [IHwf IHfk]|db o r _ [IHwf IHfk]].
  - split; [apply wellFormed_open|reflexivity].
  - destruct (addDocument_state o1 o2 doc db) as [->|[h [_ [->| ->]]]].
    + now split.
    + split; [now apply wellFormed_afterDocumentWrite|exact IHfk].
    + split; [now apply wellFormed_afterUpsert|].
      now rewrite (proj2 (afterUpsert_rest doc h db)).
  - destruct (deleteRepo_state o r db) as [->| ->].
    + now split.
    + split; [now apply wellFormed_delete|exact IHfk].
Qed.

Lemma reachable_noOrphan (db : Database) :
  reachable true db -> noOrphanEmbedding db.
Proof.
  induction 1 as [|db o1 o2 doc Hr IH|db o r Hr IH].
  - intros e [].
  - destruct (reachable_wellFormed true db Hr) as [_ Hfk].
    destruct (addDocument_state o1 o2 doc db) as [->|[h [_ [->| ->]]]].
    + exact IH.
    + now apply noOrphan_afterDocumentWrite.
    + now apply noOrphan_afterUpsert.
  - destruct (reachable_wellFormed true db Hr) as [_ Hfk].
    destruct (deleteRepo_state o r db) as [->| ->].
    + exact IH.
    + now apply noOrphan_delete.
Qed.

Lemma storeStep_reachable (fk : bool) (db db' : Database) :
  reachable fk db -> storeStep db db' -> reachable fk db'.
Proof.
  intros Hr [[o1 [o2 [doc ->]]]|[o [r ->]]]; now constructor.
Qed.

(** A write keeps old chunk rows or adds one with a larger id. *)
Lemma storeStep_documents (db db' : Database) (d : DocRow) :
  storeStep db db' -> In d (documents db') ->
  In d (documents db) \/ (documents_seq db < row_id d)%Z.
Proof.
  intros [[o1 [o2 [doc ->]]]|[o [r ->]]] Hin.
  - destruct (nextDocumentId_above db) as [Hseq _].
    assert (Hw : forall h, In d (documents (afterDocumentWrite doc h db)) ->
                 In d (documents db) \/ (documents_seq db < row_id d)%Z).
    { intros h Hd. rewrite afterDocumentWrite_documents in Hd.
      apply in_app_or in Hd as [Hd|[<-|[]]].
      - left. apply filter_In in Hd. tauto.
      - right. exact Hseq. }
    destruct (addDocument_state o1 o2 doc db) as [E|[h [_ [E|E]]]];
      rewrite E in Hin.
    + now left.
    + now apply (Hw h).
    + rewrite afterUpsert_documents, <- afterDocumentWrite_documents in Hin.
      now apply (Hw h).
  - destruct (deleteRepo_state o r db) as [E|E]; rewrite E in Hin.
    + now left.
    + left. unfold deleteDocumentsWhereRepo in Hin. cbn [fst documents] in Hin.
      apply filter_In in Hin. tauto.
Qed.

(** C5: in a store opened with foreign keys enforced (the default of the
    SQLite build that better-sqlite3 bundles) every embedding row has its
    chunk row, after any sequence of upserts and deleteRepo calls, also
    failed ones; and when a write removes a chunk row, by deleteRepo or by
    replacing it in an upsert, no embedding row of that chunk is left. *)
Theorem embeddings_follow_their_chunk (db : Database) :
  reachable true db ->
  noOrphanEmbedding db
  /\ forall db' d e,
       storeStep db db' ->
       In d (documents db) -> ~ In d (documents db') ->
       In e (embeddings db') -> emb_document_id e <> row_id d.
Proof.
  intros Hr. split; [now apply reachable_noOrphan|].
  intros db' d e Hstep Hd Hgone He E.
  destruct (reachable_wellFormed true db Hr) as [[Hnd [Hids _]] _].
  pose proof (reachable_noOrphan db' (storeStep_reachable true db db' Hr Hstep))
    as Hno.
  destruct (Hno e He) as [d' [Hd' E']].
  destruct (storeStep_documents db db' d' Hstep Hd') as [Hold|Hnew].
  - assert (d' = d) by (apply (NoDup_map_inj row_id (documents db)); congruence).
    subst d'. contradiction.
  - specialize (Hids d Hd). lia.
Qed.

Lemma reachable_addAll (fk : bool) (docs : list DocumentChunk) :
  forall db, reachable fk db -> reachable fk (addAll docs db).
Proof.
  unfold addAll. induction docs as [|doc docs IH]; intros db Hr; simpl;
    [exact Hr|].
  apply IH. now constructor.
Qed.

Lemma embeddings_follow_their_chunk_witness :
  reachable true (addAll [firstUpsert; secondUpsert] (open true))
  /\ noOrphanEmbedding (addAll [firstUpsert; secondUpsert] (open true)).
Proof.
  assert (H : reachable true (addAll [firstUpsert; secondUpsert] (open true)))
    by (apply reachable_addAll; constructor).
  split; [exact H|].
  exact (proj1 (embeddings_follow_their_chunk _ H)).
Defined.

(** Without foreign-key enforcement the embedding of a deleted chunk would
    stay behind: the invariant rests on the pragma. *)
Lemma orphan_without_foreign_keys :
  ~ noOrphanEmbedding
      (fst (deleteRepo Executes (js "a/b") (addAll [firstUpsert] (open false)))).
Proof.
  intros H. destruct (H (mkEmbRow 1 1 [1; 0]%float)) as [d [[] _]].
  vm_compute. left. reflexivity.
Qed.

(** *** Atomicity of an upsert *)




(** *** Upsert *)

Lemma firstn_In_list {A : Type} (n : nat) (l : list A) (x : A) :
  In x (firstn n l) -> In x l.
Proof.
  revert l; induction n as [|n IH]; intros [|y l]; simpl; try contradiction.
  intros [->|H]; [now left|right; now apply IH].
Qed.

Lemma candidates_spec (db : Database) (repoFilter : option (list jsstring))
  (row : DocRow * EmbRow) :
  In row (candidates db repoFilter) <->
  In row (joinRows db)
  /\ match repoFilter with
     | Some ((_ :: _) as repos) => In (row_repo (fst row)) repos
     | _ => True
     end.
Proof.
  unfold candidates. destruct repoFilter as [[|x repos]|]; try tauto.
  rewrite filter_In, existsb_exists. split; intros [Hin H]; split; trivial.
  - destruct H as [y [Hy E]]. apply jseqb_eq in E. now rewrite E.
  - exists (row_repo (fst row)). split; [exact H|apply jseqb_refl].
Qed.

Lemma filter_nil {A : Type} (p : A -> bool) (l : list A) :
  (forall x, In x l -> p x = false) -> filter p l = [].
Proof.
  induction l as [|x l IH]; intros H; simpl; [reflexivity|].
  rewrite (H x (or_introl eq_refl)). apply IH. intros y Hy. apply H. now right.
Qed.

Lemma filter_filter_implied {A : Type} (p q : A -> bool) (l : list A) :
  (forall x, In x l -> p x = true -> q x = true) ->
  filter p (filter q l) = filter p l.
Proof.
  induction l as [|x l IH]; intros H; simpl; [reflexivity|].
  assert (IH' : filter p (filter q l) = filter p l)
    by (apply IH; intros y Hy; apply H; now right).
  destruct (q x) eqn:Q; simpl.
  - now rewrite IH'.
  - destruct (p x) eqn:P; [|exact IH'].
    rewrite (H x (or_introl eq_refl) P) in Q. discriminate.
Qed.



Lemma filter_pairs_of {A B : Type} (p : A -> bool) (x : A) (l : list B) :
  filter (fun r => p (fst r)) (map (pair x) l)
  = if p x then map (pair x) l else [].
Proof.
  induction l as [|y l IH]; simpl; [now destruct (p x)|].
  rewrite IH. now destruct (p x).
Qed.

(** The join over the chunk rows that satisfy [p], when their embeddings
    are the same in [E'] as in [E]. *)
Lemma join_filter (p : DocRow -> bool) (E E' : list EmbRow) (D : list DocRow) :
  (forall d, In d D -> p d = true ->
     filter (fun e => Z.eqb (emb_document_id e) (row_id d)) E'
     = filter (fun e => Z.eqb (emb_document_id e) (row_id d)) E) ->
  flat_map (fun d => map (pair d)
              (filter (fun e => Z.eqb (emb_document_id e) (row_id d)) E'))
           (filter p D)
  = filter (fun r => p (fst r))
      (flat_map (fun d => map (pair d)
                   (filter (fun e => Z.eqb (emb_document_id e) (row_id d)) E))
                D).
Proof.
  induction D as [|d D IH]; intros H; simpl; [reflexivity|].
  assert (IH' := IH (fun x Hx => H x (or_intror Hx))).
  rewrite filter_app, filter_pairs_of.
  destruct (p d) eqn:P; simpl; [|exact IH'].
  now rewrite IH', (H d (or_introl eq_refl) P).
Qed.

(** An upsert on the join of the two tables: the joined rows of the
    replaced chunk go, one joined row with the new embedding comes. *)
Lemma joinRows_afterUpsert (doc : DocumentChunk) (h : jsstring) (db : Database) :
  wellFormed db ->
  exists k,
    joinRows (afterUpsert doc h db)
    = filter (fun r => negb (conflictsWith doc (fst r))) (joinRows db)
      ++ [(documentRow (nextDocumentId db) doc h,
           mkEmbRow k (nextDocumentId db) (toFloat32Array (embedding doc)))].
Proof.
  intros [Hnd [Hd He]]. destruct (afterUpsert_embeddings doc h db) as [k Ek].
  destruct (nextDocumentId_above db) as [Hseq Hids].
  exists k. unfold joinRows. rewrite afterUpsert_documents, Ek, flat_map_app.
  f_equal.
  - apply (join_filter (fun d => negb (conflictsWith doc d))).
    intros d Hin Hkeep. rewrite filter_app.
    cbn [filter emb_document_id].
    replace (Z.eqb (nextDocumentId db) (row_id d)) with false
      by (symmetry; apply Z.eqb_neq; specialize (Hids d Hin); lia).
    rewrite app_nil_r. unfold cascade. destruct (foreign_keys db); [|reflexivity].
    apply filter_filter_implied. intros e _ Em. apply Z.eqb_eq in Em.
    apply negb_true_iff. destruct (existsb _ _) eqn:X; [|reflexivity].
    apply existsb_exists in X as [d' [Hd' E']]. apply Z.eqb_eq in E'.
    apply filter_In in Hd' as [Hd' C].
    assert (d = d') by (apply (NoDup_map_inj row_id (documents db)); congruence).
    subst d'. rewrite C in Hkeep. discriminate.
  - cbn [flat_map]. rewrite app_nil_r, filter_app.
    rewrite filter_nil.
    + cbn [filter emb_document_id documentRow row_id app].
      now rewrite Z.eqb_refl.
    + intros e Hin. apply cascade_incl in Hin. specialize (He e Hin).
      apply Z.eqb_neq. cbn [documentRow row_id]. lia.
Qed.




Lemma slice0_In {A : Type} (n : Z) (l : list A) (x : A) :
  In x (slice0 n l) -> In x l.
Proof.
  unfold slice0. destruct (n <? 0)%Z; apply firstn_In_list.
Qed.

Lemma sqlLimit_In {A : Type} (n : Z) (l : list A) (x : A) :
  In x (sqlLimit n l) -> In x l.
Proof.
  unfold sqlLimit. destruct (n <? 0)%Z; [trivial|apply firstn_In_list].
Qed.






(** *** Retrieval *)

(** The insertion sort orders a list whenever [after] is a strict order
    on its elements, as the comparison of TEXT values is and as the
    comparator of searchSimilar is on finite similarities. *)
Section Sorted.

Context {A : Type} (after : A -> A -> bool).

Lemma insertSorted_sorted (x : A) (l : list A) :
  strictOn after (x :: l) ->
  StronglySorted (fun a b => after a b = false) l ->
  StronglySorted (fun a b => after a b = false) (insertSorted after x l).
Proof.
  intros [Hasym Htrans] Hs. induction Hs as [|y l Hs IH Hy]; simpl.
  - repeat constructor.
  - destruct (after y x) eqn:E.
    + constructor; [now constructor|]. constructor.
      * apply Hasym; simpl; auto.
      * rewrite Forall_forall in *. intros z Hz.
        destruct (after x z) eqn:Exz; [|reflexivity].
        rewrite <- (Hy z Hz). symmetry.
        apply (Htrans y x z); simpl; auto.
    + constructor.
      * apply IH.
        -- intros a b Ha Hb. apply Hasym; simpl in *; tauto.
        -- intros a b c Ha Hb Hc. apply Htrans; simpl in *; tauto.
      * rewrite Forall_forall in *. intros z Hz.
        apply (Permutation_in _ (Permutation_sym (insertSorted_perm after x l)))
          in Hz.
        destruct Hz as [<-|Hz]; [exact E|now apply Hy].
Qed.

Lemma fold_insert_sorted (l : list A) :
  forall acc,
    strictOn after (l ++ acc) ->
    StronglySorted (fun a b => after a b = false) acc ->
    StronglySorted (fun a b => after a b = false)
      (fold_left (fun acc x => insertSorted after x acc) l acc).
Proof.
  induction l as [|x l IH]; intros acc Hstrict Hs; simpl; [exact Hs|].
  assert (Hsub : forall z, In z (l ++ insertSorted after x acc) ->
                           In z ((x :: l) ++ acc)).
  { intros z Hz. apply in_app_or in Hz as [Hz|Hz].
    - simpl. right. apply in_or_app. now left.
    - apply (Permutation_in _ (Permutation_sym (insertSorted_perm after x acc)))
        in Hz.
      destruct Hz as [<-|Hz]; simpl; [now left|right; apply in_or_app; now right]. }
  destruct Hstrict as [Hasym Htrans]. apply IH.
  - split.
    + intros a b Ha Hb. apply Hasym; now apply Hsub.
    + intros a b c Ha Hb Hc. apply Htrans; now apply Hsub.
  - assert (Hin : forall z, In z (x :: acc) -> In z ((x :: l) ++ acc)).
    { intros z [->|Hz]; simpl; [now left|right; apply in_or_app; now right]. }
    apply insertSorted_sorted; [|exact Hs]. split.
    + intros a b Ha Hb. apply Hasym; now apply Hin.
    + intros a b c Ha Hb Hc. apply Htrans; now apply Hin.
Qed.

Lemma sortBy_sorted (l : list A) :
  strictOn after l ->
  StronglySorted (fun a b => after a b = false) (sortBy after l).
Proof.
  intros H. apply fold_insert_sorted; [now rewrite app_nil_r|constructor].
Qed.

End Sorted.

Lemma textLtb_irrefl (a : jsstring) : textLtb a a = false.
Proof.
  induction a as [|x a IH]; simpl; [reflexivity|].
  now rewrite N.ltb_irrefl, N.eqb_refl, IH.
Qed.

Lemma textLtb_trans (a : jsstring) :
  forall b c, textLtb a b = true -> textLtb b c = true -> textLtb a c = true.
Proof.
  induction a as [|x a IH]; intros [|y b] [|z c]; simpl; try discriminate;
    trivial.
  intros Hab Hbc.
  apply orb_true_iff in Hab as [Hxy|Hxy]; apply orb_true_iff in Hbc as [Hyz|Hyz];
    apply orb_true_iff.
  - left. apply N.ltb_lt in Hxy, Hyz. apply N.ltb_lt. lia.
  - apply andb_true_iff in Hyz as [Hyz _]. apply N.eqb_eq in Hyz. subst z.
    now left.
  - apply andb_true_iff in Hxy as [Hxy _]. apply N.eqb_eq in Hxy. subst y.
    now left.
  - apply andb_true_iff in Hxy as [Hxy Hab], Hyz as [Hyz Hbc].
    apply N.eqb_eq in Hxy, Hyz. subst y z. right.
    rewrite N.eqb_refl. simpl. now apply (IH b c).
Qed.



(** The results of a search are in non-increasing order of similarity
    whenever the comparator is a strict order on the scored rows. *)
Lemma searchSimilar_sorted (db : Database) (q : list float) (limit : Z)
  (repoFilter : option (list jsstring)) :
  (0 <= limit)%Z ->
  strictOn (fun a b => (0 <? similarity b - similarity a)%float)
           (map (score q) (fetched db limit repoFilter)) ->
  StronglySorted (fun a b => (0 <? similarity b - similarity a)%float = false)
                 (searchSimilar db q limit repoFilter).
Proof.
  intros Hl Hstrict. unfold searchSimilar, slice0.
  replace (limit <? 0)%Z with false by (symmetry; apply Z.ltb_ge; lia).
  pose proof (sortBy_sorted _ _ Hstrict) as Hs. fold (sortBySimilarity
    (map (score q) (fetched db limit repoFilter))) in Hs.
  revert Hs. generalize (sortBySimilarity (map (score q) (fetched db limit repoFilter))).
  generalize (Z.to_nat limit). intros n l Hs. revert n.
  induction Hs as [|a l Hs IH Ha]; intros [|n]; simpl; try constructor.
  - apply IH.
  - rewrite Forall_forall in *. intros z Hz. apply Ha. now apply firstn_In_list in Hz.
Qed.




(** *** Embedding lengths *)





End VectorStoreFacts.

(** ** The freshness gate *)

Module IndexFacts.

Import VectorStore Index.

(** A repository whose stored date is not a valid date is indexed. *)
Lemma invalid_date_reindexes (parseDate : jsstring -> option Z)
  (existing : RepoStats) (updatedAt : jsstring) :
  parseDate (stat_lastUpdated existing) = None \/ parseDate updatedAt = None ->
  needsReindex parseDate (Some existing) updatedAt = true.
Proof.
  unfold needsReindex, upToDate, dateGe. intros [-> | ->]; [reflexivity|].
  now destruct (parseDate (stat_lastUpdated existing)).
Qed.

(** C6: without stats for the repository the gate asks for indexing; with
    stats it asks for indexing exactly when the stored most recent
    lastUpdated is strictly before the timestamp of the source, so not
    when the two are equal or the stored one is later. *)
Theorem freshness_gate (parseDate : jsstring -> option Z)
  (existing : RepoStats) (updatedAt : jsstring) (stored source : Z) :
  parseDate (stat_lastUpdated existing) = Some stored ->
  parseDate updatedAt = Some source ->
  needsReindex parseDate None updatedAt = true
  /\ ((stored < source)%Z -> needsReindex parseDate (Some existing) updatedAt = true)
  /\ ((source <= stored)%Z ->
      needsReindex parseDate (Some existing) updatedAt = false).
Proof.
  intros Hs Hu. unfold needsReindex, upToDate, dateGe. rewrite Hs, Hu.
  split; [reflexivity|]. split; intros H.
  - apply negb_true_iff, Z.leb_gt. exact H.
  - apply negb_false_iff, Z.leb_le. exact H.
Qed.

Lemma freshness_gate_witness :
  sampleParse (js "2024-01-15T10:30:00Z") = Some 1705314600000%Z
  /\ sampleParse (js "2024-02-01T00:00:00Z") = Some 1706745600000%Z
  /\ (1705314600000 < 1706745600000)%Z
  /\ needsReindex sampleParse
       (Some (mkStats (js "bitartes/user-service") 3 (js "2024-01-15T10:30:00Z")))
       (js "2024-02-01T00:00:00Z") = true.
Proof.
  assert (H : (1705314600000 < 1706745600000)%Z) by lia.
  split; [reflexivity|]. split; [reflexivity|]. split; [exact H|].
  exact (proj1 (proj2
    (freshness_gate sampleParse
       (mkStats (js "bitartes/user-service") 3 (js "2024-01-15T10:30:00Z"))
       (js "2024-02-01T00:00:00Z") 1705314600000 1706745600000 eq_refl eq_refl))
    H).
Defined.

End IndexFacts.

(** ** The scenarios of the specification, run on the model *)

Module Scenarios.

Import VectorStore.

(** Scenario A: one top-level heading "Setup" and one paragraph give one
    chunk titled "Setup" that holds the paragraph. *)
Example scenario_heading_and_paragraph :
  Embeddings.chunkMarkdownContent
    (fun _ => [Embeddings.tk "heading_open" "h1"; Embeddings.inlineTok (js "Setup");
               Embeddings.tk "heading_close" "h1"]
              ++ Embeddings.paragraphTokens (js "Run the installer."))
    (js "# Setup" ++ Embeddings.lf2 ++ js "Run the installer.")
    (js "docs/setup.md")
  = [Embeddings.mkChunk (js "# Setup" ++ Embeddings.lf2 ++ js "Run the installer.")
       (js "Setup") None].
Proof. vm_compute. reflexivity. Qed.

(** Scenario B: a chunk upserted with embedding [1, 0] is returned for the
    query [1, 0] with similarity 1. *)
Example scenario_upsert_then_search :
  map (fun r => (filePath (document r), similarity r))
      (searchSimilar (addAll [firstUpsert] (open true)) [1; 0]%float 1 None)
  = [(js "README.md", 1%float)].
Proof. vm_compute. reflexivity. Qed.

(** Scenario C: after deleteRepo the repository lists no chunk. *)
Example scenario_delete_then_list :
  getDocumentsByRepo
    (fst (deleteRepo Executes (js "a/b") (addAll [firstUpsert; dim2Doc] (open true))))
    (js "a/b")
  = [].
Proof. vm_compute. reflexivity. Qed.

(** Scenario D: three chunks of "a/b" and one of "c/d" give two stats
    entries with counts 3 and 1. *)
Example scenario_stats :
  map (fun st => (stat_repo st, docCount st))
      (getRepoStats
         (addAll [mkDoc None (js "c/d") (js "docs/x.md") (js "X") [1; 0]%float
                    (mkMetadata None None (js "2024-01-05T00:00:00Z")
                                (Some (js "9e1b77d")));
                  firstUpsert; dim2Doc; dim3Doc]
                 (open true)))
  = [(js "a/b", 3%Z); (js "c/d", 1%Z)].
Proof. vm_compute. reflexivity. Qed.

End Scenarios.

(** ** Further properties of the store *)

Module StoreMoreFacts.

Import VectorStore JSStringFacts VectorStoreFacts.

(** *** The join and the write statements *)

Lemma joinRows_In (db : Database) (d : DocRow) (e : EmbRow) :
  In (d, e) (joinRows db) <->
  In d (documents db) /\ In e (embeddings db) /\ emb_document_id e = row_id d.
Proof.
  unfold joinRows. rewrite in_flat_map. split.
  - intros [d' [Hd Hin]]. apply in_map_iff in Hin as [e' [E He]].
    inversion E; subst. apply filter_In in He as [He Hid].
    apply Z.eqb_eq in Hid. tauto.
  - intros [Hd [He Hid]]. exists d. split; [exact Hd|].
    apply in_map. apply filter_In. split; [exact He|now apply Z.eqb_eq].
Qed.

(** The embeddings of a chunk that a delete keeps are not touched by the
    cascade of that delete. *)
Lemma cascade_keeps (fk : bool) (gone : DocRow -> bool) (D : list DocRow)
  (E : list EmbRow) (d : DocRow) :
  NoDup (map row_id D) -> In d D -> gone d = false ->
  filter (fun e => Z.eqb (emb_document_id e) (row_id d))
         (cascade fk (filter gone D) E)
  = filter (fun e => Z.eqb (emb_document_id e) (row_id d)) E.
Proof.
  intros Hnd Hd Hkeep. unfold cascade. destruct fk; [|reflexivity].
  apply filter_filter_implied. intros e _ Em. apply Z.eqb_eq in Em.
  apply negb_true_iff. destruct (existsb _ _) eqn:X; [|reflexivity].
  apply existsb_exists in X as [d' [Hd' E']]. apply Z.eqb_eq in E'.
  apply filter_In in Hd' as [Hd' G].
  assert (d = d') by (apply (NoDup_map_inj row_id D); congruence).
  subst d'. congruence.
Qed.

Lemma joinRows_delete (r : jsstring) (db : Database) :
  wellFormed db ->
  joinRows (fst (deleteDocumentsWhereRepo r db))
  = filter (fun row => negb (jseqb (row_repo (fst row)) r)) (joinRows db).
Proof.
  intros [Hnd _]. unfold joinRows, deleteDocumentsWhereRepo.
  cbn [fst documents embeddings].
  apply (join_filter (fun d => negb (jseqb (row_repo d) r))).
  intros d Hd Hkeep. apply cascade_keeps; trivial.
  now apply negb_true_iff.
Qed.

Lemma joinRows_afterDocumentWrite (doc : DocumentChunk) (h : jsstring)
  (db : Database) :
  wellFormed db ->
  joinRows (afterDocumentWrite doc h db)
  = filter (fun row => negb (conflictsWith doc (fst row))) (joinRows db).
Proof.
  intros [Hnd [Hd He]]. destruct (nextDocumentId_above db) as [Hseq _].
  unfold joinRows. rewrite afterDocumentWrite_documents,
    afterDocumentWrite_embeddings, flat_map_app.
  cbn [flat_map].
  rewrite (filter_nil
             (fun e => Z.eqb (emb_document_id e)
                             (row_id (documentRow (nextDocumentId db) doc h)))).
  - cbn [map]. rewrite !app_nil_r.
    apply (join_filter (fun d => negb (conflictsWith doc d))).
    intros d Hin Hkeep. apply cascade_keeps; trivial.
    now apply negb_true_iff.
  - intros e Hin. apply cascade_incl in Hin. specialize (He e Hin).
    apply Z.eqb_neq. cbn [documentRow row_id]. lia.
Qed.

Lemma other_repo_not_conflicting (doc : DocumentChunk) (r : jsstring) (d : DocRow) :
  r <> repo doc -> jseqb (row_repo d) r = true -> conflictsWith doc d = false.
Proof.
  intros Hr E. apply jseqb_eq in E. unfold conflictsWith, conflicts.
  replace (jseqb (row_repo d) (repo doc)) with false; [reflexivity|].
  symmetry. apply jseqb_neq. congruence.
Qed.

(** An upsert, whatever becomes of its two statements, leaves the joined
    rows of every other repository as they are. *)
Lemma addDocument_other_repo (o1 o2 : Substrate) (doc : DocumentChunk)
  (db : Database) (r : jsstring) :
  wellFormed db -> r <> repo doc ->
  filter (fun row => jseqb (row_repo (fst row)) r)
         (joinRows (fst (addDocument o1 o2 doc db)))
  = filter (fun row => jseqb (row_repo (fst row)) r) (joinRows db).
Proof.
  intros Hwf Hr.
  assert (Hkept : filter (fun row => jseqb (row_repo (fst row)) r)
                    (filter (fun row => negb (conflictsWith doc (fst row)))
                            (joinRows db))
                  = filter (fun row => jseqb (row_repo (fst row)) r) (joinRows db)).
  { apply filter_filter_implied. intros row _ E. apply negb_true_iff.
    now apply (other_repo_not_conflicting doc r). }
  destruct (addDocument_state o1 o2 doc db) as [->|[h [_ [->| ->]]]].
  - reflexivity.
  - now rewrite joinRows_afterDocumentWrite.
  - destruct (joinRows_afterUpsert doc h db Hwf) as [k ->].
    rewrite filter_app, Hkept. cbn [filter fst documentRow row_repo].
    replace (jseqb (repo doc) r) with false; [apply app_nil_r|].
    symmetry. apply jseqb_neq. congruence.
Qed.

(** *** deleteRepo *)

Lemma deleted_repo_has_no_row (db : Database) (r : jsstring) (d : DocRow) :
  In d (documents (fst (deleteRepo Executes r db))) -> row_repo d <> r.
Proof.
  intros Hin. cbn in Hin. apply filter_In in Hin as [_ Hin].
  apply negb_true_iff in Hin. now apply jseqb_neq.
Qed.

(** X1: after a deleteRepo that is carried out, the repository has no chunk
    row and its read is empty, in every store. *)
Theorem deleteRepo_empties_repo (db : Database) (r : jsstring) :
  getDocumentsByRepo (fst (deleteRepo Executes r db)) r = []
  /\ forall d, In d (documents (fst (deleteRepo Executes r db))) -> row_repo d <> r.
Proof.
  split; [|apply deleted_repo_has_no_row].
  unfold getDocumentsByRepo. rewrite filter_nil; [reflexivity|].
  intros [d e] Hin. apply joinRows_In in Hin as [Hd _].
  apply jseqb_neq. now apply (deleted_repo_has_no_row db r).
Qed.

(** X2: deleteRepo, carried out or failed, leaves the read of every other
    repository as it is. *)
Theorem deleteRepo_keeps_other_repos (fk : bool) (db : Database)
  (o : Substrate) (r r' : jsstring) :
  reachable fk db -> r' <> r ->
  getDocumentsByRepo (fst (deleteRepo o r db)) r' = getDocumentsByRepo db r'.
Proof.
  intros Hr Hne. destruct (reachable_wellFormed fk db Hr) as [Hwf _].
  destruct (deleteRepo_state o r db) as [->| ->]; [reflexivity|].
  unfold getDocumentsByRepo. rewrite joinRows_delete by exact Hwf.
  rewrite filter_filter_implied; [reflexivity|].
  intros row _ E. apply jseqb_eq in E. apply negb_true_iff, jseqb_neq. congruence.
Qed.

Lemma deleteRepo_keeps_other_repos_witness :
  reachable true StoreSamples.twoRepoStore
  /\ js "c/d" <> js "a/b"
  /\ getDocumentsByRepo
       (fst (deleteRepo Executes (js "a/b") StoreSamples.twoRepoStore)) (js "c/d")
     = getDocumentsByRepo StoreSamples.twoRepoStore (js "c/d").
Proof.
  assert (H1 : reachable true StoreSamples.twoRepoStore)
    by (apply reachable_addAll; constructor).
  assert (H2 : js "c/d" <> js "a/b") by (vm_compute; discriminate).
  split; [exact H1|]. split; [exact H2|].
  exact (deleteRepo_keeps_other_repos true StoreSamples.twoRepoStore Executes
           (js "a/b") (js "c/d") H1 H2).
Defined.

Lemma filter_all {A : Type} (p : A -> bool) (l : list A) :
  (forall x, In x l -> p x = true) -> filter p l = l.
Proof.
  induction l as [|x l IH]; intros H; simpl; [reflexivity|].
  rewrite (H x (or_introl eq_refl)). f_equal. apply IH.
  intros y Hy. apply H. now right.
Qed.

(** X3: deleteRepo of a repository that has no chunk row changes nothing. *)
Theorem deleteRepo_absent_repo (db : Database) (o : Substrate) (r : jsstring) :
  (forall d, In d (documents db) -> row_repo d <> r) ->
  fst (deleteRepo o r db) = db.
Proof.
  intros Habsent. destruct (deleteRepo_state o r db) as [->| ->]; [reflexivity|].
  unfold deleteDocumentsWhereRepo. cbn [fst].
  rewrite (filter_nil (fun d => jseqb (row_repo d) r)) by
    (intros d Hd; apply jseqb_neq; now apply Habsent).
  rewrite filter_all by
    (intros d Hd; apply negb_true_iff, jseqb_neq; now apply Habsent).
  assert (Hc : cascade (foreign_keys db) [] (embeddings db) = embeddings db).
  { unfold cascade. destruct (foreign_keys db); [|reflexivity].
    now apply filter_all. }
  rewrite Hc. now destruct db.
Qed.

Lemma deleteRepo_absent_repo_witness :
  (forall d, In d (documents mixedStore) -> row_repo d <> js "c/d")
  /\ fst (deleteRepo Executes (js "c/d") mixedStore) = mixedStore.
Proof.
  assert (H : forall d, In d (documents mixedStore) -> row_repo d <> js "c/d").
  { intros d Hd. vm_compute in Hd. destruct Hd as [<-|[<-|[]]]; vm_compute;
      discriminate. }
  split; [exact H|].
  exact (deleteRepo_absent_repo mixedStore Executes (js "c/d") H).
Defined.

(** *** Retrieval *)

(** X4: with a filter that is not empty, every result of a search is a chunk
    of a repository of the filter. *)
Theorem search_stays_in_filter (db : Database) (q : list float) (limit : Z)
  (first : jsstring) (others : list jsstring) :
  Forall (fun r => In (repo (document r)) (first :: others))
         (searchSimilar db q limit (Some (first :: others))).
Proof.
  apply Forall_forall. intros r Hin.
  unfold searchSimilar, sortBySimilarity in Hin.
  apply slice0_In, sortBy_In, in_map_iff in Hin as [row [<- Hrow]].
  unfold fetched, orderByLastUpdatedDesc in Hrow.
  apply sqlLimit_In, sortBy_In in Hrow.
  exact (proj2 (proj1 (candidates_spec db (Some (first :: others)) row) Hrow)).
Qed.

(** An empty embedding or an embedding of zeros, on either side, has
    similarity 0: the division by a zero magnitude is never made. *)
Lemma sum_of_squares_zeros (n : nat) :
  fold_left (fun sum val => sum + val * val)%float (repeat 0%float n) 0%float
  = 0%float.
Proof.
  induction n as [|n IH]; simpl; [reflexivity|].
  replace (0 + 0 * 0)%float with 0%float by reflexivity. exact IH.
Qed.

Lemma magnitude_zeros (n : nat) :
  (magnitude (repeat 0%float n) =? 0)%float = true.
Proof. unfold magnitude. rewrite sum_of_squares_zeros. reflexivity. Qed.

(** X5: the similarity with a vector of zeros, of whatever length, or with an
    empty vector is 0, on either side: the test of the magnitudes comes
    before the division, so no NaN leaves cosineSimilarity here. *)
Theorem zero_vector_scores_zero (a b : list float) (n : nat) :
  cosineSimilarity (repeat 0%float n) b = 0%float
  /\ cosineSimilarity a (repeat 0%float n) = 0%float
  /\ cosineSimilarity [] b = 0%float
  /\ cosineSimilarity a [] = 0%float.
Proof.
  assert (HA : forall v w,
             (magnitude v =? 0)%float = true -> cosineSimilarity v w = 0%float).
  { intros v w H. unfold cosineSimilarity. now rewrite H. }
  assert (HB : forall v w,
             (magnitude w =? 0)%float = true -> cosineSimilarity v w = 0%float).
  { intros v w H. unfold cosineSimilarity. rewrite H. now rewrite orb_true_r. }
  split; [|split; [|split]].
  - exact (HA (repeat 0%float n) b (magnitude_zeros n)).
  - exact (HB a (repeat 0%float n) (magnitude_zeros n)).
  - exact (HA [] b (magnitude_zeros 0)).
  - exact (HB a [] (magnitude_zeros 0)).
Qed.

(** *** One embedding per chunk *)

Lemma reachable_embeddings_distinct (fk : bool) (db : Database) :
  reachable fk db -> NoDup (map emb_document_id (embeddings db)).
Proof.
  intros Hr. induction Hr as [|db o1 o2 doc Hr IH|db o r Hr IH].
  - constructor.
  - destruct (reachable_wellFormed fk db Hr) as [[_ [_ He]] _].
    assert (Hc : forall gone,
               NoDup (map emb_document_id
                        (cascade (foreign_keys db) gone (embeddings db)))).
    { intros gone. unfold cascade. destruct (foreign_keys db); [|exact IH].
      now apply distinct_ids_filter. }
    destruct (addDocument_state o1 o2 doc db) as [->|[h [_ [->| ->]]]].
    + exact IH.
    + rewrite afterDocumentWrite_embeddings. apply Hc.
    + destruct (afterUpsert_embeddings doc h db) as [k ->].
      rewrite map_app. apply NoDup_app; [apply Hc|repeat constructor; intros []|].
      intros i Hi [<-|[]]. apply in_map_iff in Hi as [e [Ee Hin]].
      apply cascade_incl in Hin. specialize (He e Hin).
      destruct (nextDocumentId_above db) as [Hseq _]. cbn in Ee. lia.
  - destruct (deleteRepo_state o r db) as [->| ->]; [exact IH|].
    cbn [fst deleteDocumentsWhereRepo embeddings]. unfold cascade.
    destruct (foreign_keys db); [|exact IH]. now apply distinct_ids_filter.
Qed.

Lemma one_match_at_most (E : list EmbRow) (i : Z) :
  NoDup (map emb_document_id E) ->
  length (filter (fun e => Z.eqb (emb_document_id e) i) E) <= 1.
Proof.
  induction E as [|e E IH]; intros Hnd; simpl; [lia|].
  apply NoDup_cons_iff in Hnd as [Hfresh Hnd]. specialize (IH Hnd).
  destruct (Z.eqb (emb_document_id e) i) eqn:Ei; [|lia].
  apply Z.eqb_eq in Ei. rewrite filter_nil; [simpl; lia|].
  intros e' He'. apply Z.eqb_neq. intros E'. apply Hfresh.
  rewrite Ei, <- E'. now apply in_map.
Qed.

Lemma joined_ids_distinct (D : list DocRow) (E : list EmbRow) :
  NoDup (map row_id D) -> NoDup (map emb_document_id E) ->
  NoDup (map (fun row : DocRow * EmbRow => row_id (fst row))
           (flat_map (fun d => map (pair d)
                        (filter (fun e => Z.eqb (emb_document_id e) (row_id d)) E))
                     D)).
Proof.
  intros HD HE. induction D as [|d D IH]; simpl; [constructor|].
  apply NoDup_cons_iff in HD as [Hfresh HD]. specialize (IH HD).
  rewrite map_app. apply NoDup_app; [| exact IH |].
  - pose proof (one_match_at_most E (row_id d) HE) as Hone.
    destruct (filter _ E) as [|e [|e' l]]; simpl in *;
      [constructor|repeat constructor; intros []|lia].
  - intros i Hi Hrest. rewrite map_map in Hi. cbn [fst] in Hi.
    apply in_map_iff in Hi as [e [<- _]].
    apply in_map_iff in Hrest as [[d' e'] [Eid Hin]]. cbn [fst] in Eid.
    apply in_flat_map in Hin as [d'' [Hd'' Hin]].
    apply in_map_iff in Hin as [e'' [Epair _]]. inversion Epair; subst.
    apply Hfresh. rewrite <- Eid. now apply in_map.
Qed.

Lemma firstn_distinct {Row : Type} (key : Row -> Z) (n : nat) (rows : list Row) :
  NoDup (map key rows) -> NoDup (map key (firstn n rows)).
Proof.
  revert rows. induction n as [|n IH]; intros [|x rows] Hnd; simpl;
    try constructor.
  - apply NoDup_cons_iff in Hnd as [Hfresh Hnd]. intros Hin. apply Hfresh.
    apply in_map_iff in Hin as [y [Ey Hy]]. apply firstn_In_list in Hy.
    rewrite <- Ey. now apply in_map.
  - apply IH. now apply NoDup_cons_iff in Hnd as [_ Hnd].
Qed.

Lemma map_Some_distinct (ids : list Z) : NoDup ids -> NoDup (map Some ids).
Proof.
  induction 1 as [|i ids Hfresh _ IH]; simpl; constructor; [|exact IH].
  intros Hin. apply in_map_iff in Hin as [j [Ej Hj]]. congruence.
Qed.

(** X6: no search returns a chunk twice: the ids of its results are distinct. *)
Theorem search_results_distinct (fk : bool) (db : Database) (q : list float)
  (limit : Z) (repoFilter : option (list jsstring)) :
  reachable fk db ->
  NoDup (map (fun r => id (document r)) (searchSimilar db q limit repoFilter)).
Proof.
  intros Hr. destruct (reachable_wellFormed fk db Hr) as [[HD _] _].
  pose proof (reachable_embeddings_distinct fk db Hr) as HE.
  pose proof (joined_ids_distinct (documents db) (embeddings db) HD HE) as HJ.
  fold (joinRows db) in HJ.
  set (key := fun row : DocRow * EmbRow => row_id (fst row)) in *.
  assert (HC : NoDup (map key (candidates db repoFilter))).
  { unfold candidates. destruct repoFilter as [[|x xs]|]; trivial.
    now apply distinct_ids_filter. }
  assert (HF : NoDup (map key (fetched db limit repoFilter))).
  { unfold fetched, sqlLimit, orderByLastUpdatedDesc.
    assert (HO : forall after, NoDup (map key (sortBy after (candidates db repoFilter)))).
    { intros after. eapply Permutation_NoDup; [|exact HC].
      apply Permutation_map, sortBy_perm. }
    destruct (limit * 3 <? 0)%Z; [apply HO|apply firstn_distinct, HO]. }
  set (rkey := fun r : SearchResult =>
                 match id (document r) with Some i => i | None => 0%Z end).
  assert (HS : NoDup (map rkey (sortBySimilarity
                                  (map (score q) (fetched db limit repoFilter))))).
  { eapply Permutation_NoDup; [apply Permutation_map, sortBy_perm|].
    now rewrite map_map. }
  assert (HR : NoDup (map rkey (searchSimilar db q limit repoFilter))).
  { unfold searchSimilar, slice0. destruct (limit <? 0)%Z; now apply firstn_distinct. }
  replace (map (fun r => id (document r)) (searchSimilar db q limit repoFilter))
    with (map Some (map rkey (searchSimilar db q limit repoFilter))).
  - now apply map_Some_distinct.
  - rewrite map_map. apply map_ext_in. intros r Hin.
    unfold searchSimilar, sortBySimilarity in Hin.
    apply slice0_In, sortBy_In, in_map_iff in Hin as [row [<- _]]. reflexivity.
Qed.

Lemma search_results_distinct_witness :
  reachable true recencyStore
  /\ NoDup (map (fun r => id (document r))
              (searchSimilar recencyStore [1; 0]%float 10 None)).
Proof.
  assert (H : reachable true recencyStore) by (apply reachable_addAll; constructor).
  split; [exact H|].
  exact (search_results_distinct true recencyStore [1; 0]%float 10 None H).
Defined.

(** *** Row ids *)




(** *** Other keys, failed writes *)






Lemma afterDocumentWrite_key_stays (doc : DocumentChunk) (h : jsstring)
  (db : Database) (d : DocRow) :
  In d (documents db) ->
  exists d', In d' (documents (afterDocumentWrite doc h db))
             /\ row_repo d' = row_repo d
             /\ row_file_path d' = row_file_path d
             /\ row_content d' = row_content d.
Proof.
  intros Hin. rewrite afterDocumentWrite_documents.
  destruct (conflictsWith doc d) eqn:C.
  - exists (documentRow (nextDocumentId db) doc h).
    split; [apply in_or_app; right; now left|].
    unfold conflictsWith, conflicts in C.
    apply andb_true_iff in C as [C Hc]. apply andb_true_iff in C as [Hrp Hf].
    apply jseqb_eq in Hrp, Hf, Hc. cbn. now rewrite Hrp, Hf, Hc.
  - exists d. split; [|tauto]. apply in_or_app. left.
    apply filter_In. now rewrite C.
Qed.



(** *** Reads of a repository *)





End StoreMoreFacts.

(** ** Statistics *)

Module StatsFacts.

Import VectorStore JSStringFacts VectorStoreFacts StoreMoreFacts Tools.

Lemma textLtb_total (a : jsstring) :
  forall b, textLtb a b = false -> jseqb a b = false -> textLtb b a = true.
Proof.
  induction a as [|x a IH]; intros [|y b]; simpl; try discriminate; trivial.
  intros Hlt Hne. apply orb_false_iff in Hlt as [Hxy Hrest].
  apply N.ltb_ge in Hxy. destruct (N.eqb x y) eqn:E.
  - apply N.eqb_eq in E. subst y. rewrite N.eqb_refl. simpl in *.
    rewrite (IH b Hrest Hne). apply orb_true_r.
  - apply N.eqb_neq in E. apply orb_true_iff. left. apply N.ltb_lt. lia.
Qed.

Lemma lookup_below (r : jsstring) (groups : list RepoStats) :
  Forall (fun g => textLtb r (stat_repo g) = true) groups -> Index.existingRepo groups r = None.
Proof.
  induction 1 as [|g gs Hg _ IH]; simpl; [reflexivity|].
  replace (jseqb (stat_repo g) r) with false; [exact IH|].
  symmetry. apply jseqb_neq. intros E. rewrite E, textLtb_irrefl in Hg.
  discriminate.
Qed.

Lemma addToGroup_repos (d : DocRow) (groups : list RepoStats) (x : RepoStats) :
  In x (addToGroup d groups) ->
  stat_repo x = row_repo d \/ exists y, In y groups /\ stat_repo y = stat_repo x.
Proof.
  induction groups as [|g gs IH]; simpl.
  - intros [<-|[]]. now left.
  - destruct (jseqb (stat_repo g) (row_repo d)) eqn:E.
    + intros [<-|Hin]; right; [exists g|exists x]; simpl; auto.
    + destruct (textLtb (row_repo d) (stat_repo g)).
      * intros [<-|[<-|Hin]]; [now left|right; exists g|right; exists x];
          simpl; auto.
      * intros [<-|Hin]; [right; exists g; simpl; auto|].
        destruct (IH Hin) as [H|[y [Hy Ey]]]; [now left|].
        right. exists y. simpl. auto.
Qed.

Lemma addToGroup_ascending (d : DocRow) (groups : list RepoStats) :
  ascending groups -> ascending (addToGroup d groups).
Proof.
  unfold ascending. induction 1 as [|g gs Hs IH Hg]; simpl.
  - repeat constructor.
  - destruct (jseqb (stat_repo g) (row_repo d)) eqn:E.
    + constructor; [exact Hs|exact Hg].
    + destruct (textLtb (row_repo d) (stat_repo g)) eqn:L.
      * constructor; [now constructor|]. constructor; [exact L|].
        rewrite Forall_forall in *. intros z Hz. cbn [stat_repo].
        apply (textLtb_trans _ (stat_repo g)); [exact L|now apply Hg].
      * constructor; [exact IH|]. rewrite Forall_forall in *. intros z Hz.
        destruct (addToGroup_repos d gs z Hz) as [Ez|[y [Hy Ey]]].
        -- rewrite Ez. apply textLtb_total; [exact L|].
           apply jseqb_neq. apply jseqb_neq in E. congruence.
        -- rewrite <- Ey. now apply Hg.
Qed.

(** The entry of a repository after one more row has gone into the
    groups. *)
Lemma addToGroup_lookup (d : DocRow) (r : jsstring) (groups : list RepoStats) :
  ascending groups ->
  Index.existingRepo (addToGroup d groups) r
  = if jseqb (row_repo d) r then
      Some match Index.existingRepo groups r with
           | Some g =>
               mkStats (stat_repo g) (docCount g + 1)
                       (if textLtb (stat_lastUpdated g) (row_last_updated d)
                        then row_last_updated d else stat_lastUpdated g)
           | None => mkStats (row_repo d) 1 (row_last_updated d)
           end
    else Index.existingRepo groups r.
Proof.
  unfold ascending, Index.existingRepo. induction 1 as [|g gs Hs IH Hg]; simpl.
  - cbn [stat_repo]. now destruct (jseqb (row_repo d) r).
  - destruct (jseqb (stat_repo g) (row_repo d)) eqn:E.
    + apply jseqb_eq in E. simpl. cbn [stat_repo]. rewrite E.
      destruct (jseqb (row_repo d) r); [now rewrite E|reflexivity].
    + destruct (textLtb (row_repo d) (stat_repo g)) eqn:L.
      * simpl. cbn [stat_repo]. destruct (jseqb (row_repo d) r) eqn:Er;
          [|reflexivity].
        apply jseqb_eq in Er. subst r.
        rewrite (jseqb_neq (stat_repo g) (row_repo d)) in E.
        replace (jseqb (stat_repo g) (row_repo d)) with false
          by (symmetry; now apply jseqb_neq).
        fold (Index.existingRepo gs (row_repo d)). rewrite lookup_below; [reflexivity|].
        rewrite Forall_forall in *. intros z Hz.
        apply (textLtb_trans _ (stat_repo g)); [exact L|now apply Hg].
      * simpl. destruct (jseqb (stat_repo g) r) eqn:Er; [|exact IH].
        apply jseqb_eq in Er. subst r.
        replace (jseqb (row_repo d) (stat_repo g)) with false; [reflexivity|].
        symmetry. apply jseqb_neq. apply jseqb_neq in E. congruence.
Qed.

Lemma fold_addToGroup (docs : list DocRow) :
  forall groups,
    ascending groups ->
    ascending (fold_left (fun gs d => addToGroup d gs) docs groups)
    /\ forall r,
         Index.existingRepo (fold_left (fun gs d => addToGroup d gs) docs groups) r
         = fold_left
             (fun acc d =>
                if jseqb (row_repo d) r then
                  Some match acc with
                       | Some g =>
                           mkStats (stat_repo g) (docCount g + 1)
                                   (if textLtb (stat_lastUpdated g)
                                               (row_last_updated d)
                                    then row_last_updated d
                                    else stat_lastUpdated g)
                       | None => mkStats (row_repo d) 1 (row_last_updated d)
                       end
                else acc)
             docs (Index.existingRepo groups r).
Proof.
  induction docs as [|d docs IH]; intros groups Hasc; simpl; [now split|].
  destruct (IH (addToGroup d groups) (addToGroup_ascending d groups Hasc))
    as [Hs Hl].
  split; [exact Hs|]. intros r. rewrite Hl.
  now rewrite (addToGroup_lookup d r groups Hasc).
Qed.

Lemma stats_lookup (db : Database) (r : jsstring) :
  Index.existingRepo (getRepoStats db) r = statOf r (documents db).
Proof.
  unfold getRepoStats, statOf.
  now rewrite (proj2 (fold_addToGroup (documents db) [] (SSorted_nil _)) r).
Qed.


Lemma statOf_snoc (r : jsstring) (docs : list DocRow) (d : DocRow) :
  statOf r (docs ++ [d])
  = if jseqb (row_repo d) r then
      Some match statOf r docs with
           | Some g =>
               mkStats (stat_repo g) (docCount g + 1)
                       (if textLtb (stat_lastUpdated g) (row_last_updated d)
                        then row_last_updated d else stat_lastUpdated g)
           | None => mkStats (row_repo d) 1 (row_last_updated d)
           end
    else statOf r docs.
Proof. unfold statOf. now rewrite fold_left_app. Qed.

(** What the entry of a repository holds. *)
Lemma statOf_spec (r : jsstring) (docs : list DocRow) :
  match statOf r docs with
  | None => forall d, In d docs -> row_repo d <> r
  | Some g =>
      stat_repo g = r
      /\ docCount g
         = Z.of_nat (length (filter (fun d => jseqb (row_repo d) r) docs))
      /\ (exists d, In d docs /\ row_repo d = r
                    /\ row_last_updated d = stat_lastUpdated g)
      /\ (forall d, In d docs -> row_repo d = r ->
                    textLtb (stat_lastUpdated g) (row_last_updated d) = false)
  end.
Proof.
  induction docs as [|d docs IH] using rev_ind; [intros d []|].
  rewrite statOf_snoc, filter_app. cbn [filter].
  destruct (jseqb (row_repo d) r) eqn:E.
  - apply jseqb_eq in E. destruct (statOf r docs) as [g|].
    + destruct IH as [Hr [Hc [[d0 [Hd0 [Hr0 Hl0]]] Hmax]]]. cbn.
      split; [exact Hr|]. split; [rewrite length_app; simpl; lia|].
      destruct (textLtb (stat_lastUpdated g) (row_last_updated d)) eqn:L.
      * split; [exists d; split; [apply in_or_app; right; now left|now split]|].
        intros x Hx Hrx. apply in_app_or in Hx as [Hx|[<-|[]]];
          [|apply textLtb_irrefl].
        destruct (textLtb (row_last_updated d) (row_last_updated x)) eqn:X;
          [|reflexivity].
        rewrite <- (Hmax x Hx Hrx). symmetry.
        now apply (textLtb_trans _ (row_last_updated d)).
      * split; [exists d0; split; [apply in_or_app; now left|now split]|].
        intros x Hx Hrx. apply in_app_or in Hx as [Hx|[<-|[]]];
          [now apply Hmax|exact L].
    + cbn. split; [exact E|]. split.
      * rewrite filter_nil; [reflexivity|].
        intros x Hx. apply jseqb_neq. now apply IH.
      * split; [exists d; split; [apply in_or_app; right; now left|now split]|].
        intros x Hx Hrx. apply in_app_or in Hx as [Hx|[<-|[]]];
          [now destruct (IH x Hx)|apply textLtb_irrefl].
  - apply jseqb_neq in E. rewrite app_nil_r.
    destruct (statOf r docs) as [g|].
    + destruct IH as [Hr [Hc [[d0 [Hd0 [Hr0 Hl0]]] Hmax]]].
      split; [exact Hr|]. split; [exact Hc|]. split.
      * exists d0. split; [apply in_or_app; now left|now split].
      * intros x Hx Hrx. apply in_app_or in Hx as [Hx|[<-|[]]];
          [now apply Hmax|contradiction].
    + intros x Hx. apply in_app_or in Hx as [Hx|[<-|[]]]; [now apply IH|exact E].
Qed.



Lemma totalDocs_from (groups : list RepoStats) :
  forall start,
    fold_left (fun sum stat => (sum + docCount stat)%Z) groups start
    = (start + totalDocs groups)%Z.
Proof.
  unfold totalDocs. induction groups as [|g gs IH]; intros start; simpl; [lia|].
  rewrite (IH (start + docCount g)%Z), (IH (docCount g)). lia.
Qed.

Lemma totalDocs_cons (g : RepoStats) (groups : list RepoStats) :
  totalDocs (g :: groups) = (docCount g + totalDocs groups)%Z.
Proof. unfold totalDocs at 1. simpl. apply totalDocs_from. Qed.

Lemma totalDocs_addToGroup (d : DocRow) (groups : list RepoStats) :
  totalDocs (addToGroup d groups) = (totalDocs groups + 1)%Z.
Proof.
  induction groups as [|g gs IH]; simpl; [reflexivity|].
  destruct (jseqb (stat_repo g) (row_repo d)).
  - rewrite !totalDocs_cons. cbn [docCount]. lia.
  - destruct (textLtb (row_repo d) (stat_repo g)).
    + rewrite !totalDocs_cons. cbn [docCount]. lia.
    + rewrite !totalDocs_cons, IH. lia.
Qed.

(** X13: the total that get_repo_stats reports is the number of chunk rows. *)
Theorem total_is_row_count (db : Database) :
  totalDocs (getRepoStats db) = Z.of_nat (length (documents db)).
Proof.
  unfold getRepoStats.
  assert (H : forall docs groups,
             totalDocs (fold_left (fun gs d => addToGroup d gs) docs groups)
             = (totalDocs groups + Z.of_nat (length docs))%Z).
  { induction docs as [|d docs IH]; intros groups; simpl length; [simpl; lia|].
    cbn [fold_left]. rewrite IH, totalDocs_addToGroup. lia. }
  now rewrite H.
Qed.

(** X14: the freshness gate finds stats for a repository exactly when the
    repository has a chunk row; after a deleteRepo that is carried out it
    finds none and asks for indexing, whatever the dates. *)
Theorem gate_after_delete (parseDate : jsstring -> option Z) (db : Database)
  (r updatedAt : jsstring) :
  (Index.existingRepo (getRepoStats db) r = None
   <-> forall d, In d (documents db) -> row_repo d <> r)
  /\ Index.needsReindex parseDate
       (Index.existingRepo (getRepoStats (fst (deleteRepo Executes r db))) r)
       updatedAt = true.
Proof.
  assert (H : forall db0,
             Index.existingRepo (getRepoStats db0) r = None
             <-> forall d, In d (documents db0) -> row_repo d <> r).
  { intros db0. rewrite stats_lookup.
    pose proof (statOf_spec r (documents db0)) as Hs.
    destruct (statOf r (documents db0)) as [g|]; split; trivial; try discriminate.
    intros Habs. destruct Hs as [_ [_ [[d [Hd [Hr _]]] _]]].
    exfalso. now apply (Habs d). }
  split; [apply H|].
  replace (Index.existingRepo (getRepoStats (fst (deleteRepo Executes r db))) r)
    with (@None RepoStats); [reflexivity|].
  symmetry. apply H. apply deleted_repo_has_no_row.
Qed.

End StatsFacts.

(** ** The tools *)

Module ToolsFacts.

Import VectorStore JSStringFacts VectorStoreFacts StoreMoreFacts Tools.

(** *** Removal of duplicates *)

Lemma sameId_eq (a b : SearchResult) :
  sameId a b = true <-> id (document a) = id (document b).
Proof.
  unfold sameId. destruct (id (document a)) as [i|], (id (document b)) as [j|];
    split; try discriminate; try reflexivity.
  - intros E. apply Z.eqb_eq in E. now subst.
  - intros E. inversion E. apply Z.eqb_refl.
Qed.

Lemma findIndexFrom_none {A : Type} (p : A -> bool) (l : list A) :
  forall i, findIndexFrom p i l = None <-> forall x, In x l -> p x = false.
Proof.
  induction l as [|y l IH]; intros i; simpl.
  - split; [intros _ x []|reflexivity].
  - destruct (p y) eqn:Py.
    + split; [discriminate|]. intros H. rewrite (H y (or_introl eq_refl)) in Py.
      discriminate.
    + rewrite IH. split.
      * intros H x [<-|Hx]; [exact Py|now apply H].
      * intros H x Hx. apply H. now right.
Qed.

Lemma findIndexFrom_bound {A : Type} (p : A -> bool) (l : list A) :
  forall i j, findIndexFrom p i l = Some j -> i <= j < i + length l.
Proof.
  induction l as [|y l IH]; intros i j; simpl; [discriminate|].
  destruct (p y).
  - intros E. inversion E. lia.
  - intros E. apply IH in E. lia.
Qed.

Lemma findIndexFrom_app {A : Type} (p : A -> bool) (pre l : list A) :
  forall i,
    findIndexFrom p i (pre ++ l)
    = match findIndexFrom p i pre with
      | Some j => Some j
      | None => findIndexFrom p (i + length pre) l
      end.
Proof.
  induction pre as [|y pre IH]; intros i; simpl.
  - now rewrite Nat.add_0_r.
  - destruct (p y); [reflexivity|]. rewrite IH.
    now replace (S i + length pre) with (i + S (length pre)) by lia.
Qed.

(** A result at position [length pre] of [pre ++ x :: rest] is kept
    exactly when no earlier result has its id. *)
Lemma kept_iff_first (pre rest : list SearchResult) (x : SearchResult) :
  match findIndex (fun r => sameId r x) (pre ++ x :: rest) with
  | Some first => Nat.eqb (length pre) first
  | None => false
  end = negb (existsb (fun r => sameId r x) pre).
Proof.
  unfold findIndex. rewrite findIndexFrom_app.
  destruct (findIndexFrom (fun r => sameId r x) 0 pre) as [j|] eqn:E.
  - pose proof (findIndexFrom_bound _ _ _ _ E) as Hj.
    replace (Nat.eqb (length pre) j) with false
      by (symmetry; apply Nat.eqb_neq; lia).
    destruct (existsb (fun r => sameId r x) pre) eqn:X; [reflexivity|].
    assert (N : findIndexFrom (fun r => sameId r x) 0 pre = None).
    { apply findIndexFrom_none. intros y Hy.
      destruct (sameId y x) eqn:S; [|reflexivity].
      assert (existsb (fun r => sameId r x) pre = true)
        by (apply existsb_exists; now exists y).
      congruence. }
    congruence.
  - simpl. replace (sameId x x) with true by (symmetry; now apply sameId_eq).
    rewrite Nat.eqb_refl.
    destruct (existsb (fun r => sameId r x) pre) eqn:X; [|reflexivity].
    apply existsb_exists in X as [y [Hy S]].
    rewrite (proj1 (findIndexFrom_none _ pre 0) E y Hy) in S. discriminate.
Qed.

Lemma filterFrom_unique (self : list SearchResult) :
  forall rest pre,
    self = pre ++ rest ->
    let result :=
      filterFrom
        (fun result index =>
           match findIndex (fun r => sameId r result) self with
           | Some first => Nat.eqb index first
           | None => false
           end)
        (length pre) rest in
    (forall x, In x result ->
       In x rest /\ ~ In (id (document x)) (map (fun r => id (document r)) pre))
    /\ NoDup (map (fun r => id (document r)) result)
    /\ (forall x, In x rest ->
          In (id (document x)) (map (fun r => id (document r)) pre)
          \/ In (id (document x)) (map (fun r => id (document r)) result)).
Proof.
  induction rest as [|x rest IH]; intros pre Hself; cbn zeta.
  - simpl. split; [intros x []|]. split; [constructor|intros x []].
  - assert (Hself' : self = (pre ++ [x]) ++ rest)
      by (now rewrite <- app_assoc).
    specialize (IH (pre ++ [x]) Hself'). cbn zeta in IH.
    rewrite length_app in IH. cbn [length] in IH.
    replace (length pre + 1) with (S (length pre)) in IH by lia.
    destruct IH as [H1 [H2 H3]].
    clear Hself'. subst self. cbn [filterFrom]. rewrite kept_iff_first.
    assert (Hseen : existsb (fun r => sameId r x) pre = true
                    <-> In (id (document x)) (map (fun r => id (document r)) pre)).
    { rewrite existsb_exists, in_map_iff. split; intros [y [A B]]; exists y.
      - apply sameId_eq in B. now split.
      - split; [exact B|now apply sameId_eq]. }
    assert (Hpre : forall y, In (id (document y))
                               (map (fun r => id (document r)) (pre ++ [x]))
                             <-> In (id (document y))
                                    (map (fun r => id (document r)) pre)
                                 \/ id (document y) = id (document x)).
    { intros y. rewrite map_app, in_app_iff. simpl. intuition congruence. }
    destruct (existsb (fun r => sameId r x) pre) eqn:X; cbn [negb].
    + split; [|split; [exact H2|]].
      * intros y Hy. destruct (H1 y Hy) as [A B]. split; [now right|].
        intros C. apply B, Hpre. now left.
      * intros y [<-|Hy]; [left; now apply Hseen|].
        destruct (H3 y Hy) as [A|A]; [|now right].
        apply Hpre in A as [A|A]; [now left|].
        left. rewrite A. now apply Hseen.
    + assert (Hnew : ~ In (id (document x)) (map (fun r => id (document r)) pre))
        by (intros C; apply Hseen in C; discriminate).
      split; [|split].
      * intros y [<-|Hy]; [split; [now left|exact Hnew]|].
        destruct (H1 y Hy) as [A B]. split; [now right|].
        intros C. apply B, Hpre. now left.
      * cbn [map]. constructor; [|exact H2]. intros C.
        apply in_map_iff in C as [y [Ey Hy]]. destruct (H1 y Hy) as [_ B].
        apply B, Hpre. now right.
      * intros y [<-|Hy]; [right; now left|].
        destruct (H3 y Hy) as [A|A]; [|right; now right].
        apply Hpre in A as [A|A]; [now left|right; left; now symmetry].
Qed.

(** X15: the filter that removes duplicates keeps results of its input only,
    no two with the same id, and one for every id of the input. *)
Theorem uniqueById_spec (allResults : list SearchResult) :
  incl (uniqueById allResults) allResults
  /\ NoDup (map (fun r => id (document r)) (uniqueById allResults))
  /\ incl (map (fun r => id (document r)) allResults)
          (map (fun r => id (document r)) (uniqueById allResults)).
Proof.
  destruct (filterFrom_unique allResults allResults [] eq_refl) as [H1 [H2 H3]].
  fold (uniqueById allResults) in H1, H2, H3.
  split; [|split; [exact H2|]].
  - intros x Hx. now apply H1.
  - intros i Hi. apply in_map_iff in Hi as [x [<- Hx]].
    destruct (H3 x Hx) as [[]|H]; exact H.
Qed.

Lemma firstn_distinct_keys {Row Key : Type} (key : Row -> Key) (n : nat)
  (rows : list Row) :
  NoDup (map key rows) -> NoDup (map key (firstn n rows)).
Proof.
  revert rows. induction n as [|n IH]; intros [|x rows] Hnd; simpl;
    try constructor.
  - apply NoDup_cons_iff in Hnd as [Hfresh Hnd]. intros Hin. apply Hfresh.
    apply in_map_iff in Hin as [y [Ey Hy]]. apply firstn_In_list in Hy.
    rewrite <- Ey. now apply in_map.
  - apply IH. now apply NoDup_cons_iff in Hnd as [_ Hnd].
Qed.

(** X16: find_dependencies shows at most ten results, no chunk twice, each one
    a result of one of its searches. *)
Theorem dependency_results (db : Database) (queryEmbeddings : list (list float))
  (repos : option (list jsstring)) :
  length (dependencyResults db queryEmbeddings repos) <= 10
  /\ NoDup (map (fun r => id (document r))
              (dependencyResults db queryEmbeddings repos))
  /\ Forall (fun r => exists q, In q queryEmbeddings
                                /\ In r (searchSimilar db q 3 repos))
            (dependencyResults db queryEmbeddings repos).
Proof.
  unfold dependencyResults, slice0, sortBySimilarity.
  change (10 <? 0)%Z with false. cbv iota.
  set (allResults := flat_map (fun q => searchSimilar db q 3 repos) queryEmbeddings).
  destruct (filterFrom_unique allResults allResults [] eq_refl) as [Hin [Hnd _]].
  fold (uniqueById allResults) in Hin, Hnd.
  split; [|split].
  - rewrite length_firstn. change (Z.to_nat 10) with 10. lia.
  - apply firstn_distinct_keys. eapply Permutation_NoDup; [|exact Hnd].
    apply Permutation_map, sortBy_perm.
  - apply Forall_forall. intros r Hr. apply firstn_In_list, sortBy_In in Hr.
    apply Hin in Hr as [Hr _]. unfold allResults in Hr.
    now apply in_flat_map in Hr.
Qed.

(** *** index_repo_docs *)


(** What every upsert of the inner loop preserves, the loop preserves. *)
Lemma indexChunks_preserves (P : Database -> Prop) (env : Env)
  (repoFullName : jsstring) (docFile : DocumentFile)
  (chunks : list Embeddings.TextChunk) :
  (forall chunk, In chunk chunks ->
     forall db o1 o2 e,
       P db ->
       P (fst (addDocument o1 o2 (documentChunkOf repoFullName docFile chunk e) db))) ->
  forall st,
    P (store st) ->
    P (store (fst (indexChunks env repoFullName docFile chunks st))).
Proof.
  induction chunks as [|chunk rest IH]; intros Hstep st Hst; simpl; [exact Hst|].
  destruct (embed env (calls st) (Embeddings.content chunk)) as [e|];
    [|exact Hst].
  pose proof (Hstep chunk (or_introl eq_refl) (store st)
                (docWrite env (calls st)) (embWrite env (calls st)) e Hst) as Hnext.
  destruct (addDocument _ _ _ (store st)) as [db' [newId|err]]; cbn [fst] in Hnext.
  - apply IH; [|exact Hnext]. intros c Hc. apply Hstep. now right.
  - exact Hnext.
Qed.

Lemma indexFiles_preserves (parse : jsstring -> list Embeddings.Token)
  (P : Database -> Prop) (env : Env) (repoFullName : jsstring)
  (docFiles : list DocumentFile) :
  (forall docFile chunk,
     In docFile docFiles ->
     In chunk (Embeddings.chunkMarkdownContent parse (fileContent docFile)
                 (path docFile)) ->
     forall db o1 o2 e,
       P db ->
       P (fst (addDocument o1 o2 (documentChunkOf repoFullName docFile chunk e) db))) ->
  forall st processed,
    P (store st) ->
    P (store (fst (indexFiles parse env repoFullName docFiles st processed))).
Proof.
  induction docFiles as [|docFile rest IH]; intros Hstep st processed Hst; simpl;
    [exact Hst|].
  pose proof (indexChunks_preserves P env repoFullName docFile
                (Embeddings.chunkMarkdownContent parse (fileContent docFile)
                   (path docFile))
                (fun chunk Hc => Hstep docFile chunk (or_introl eq_refl) Hc)
                st Hst) as Hnext.
  destruct (indexChunks _ _ _ _ st) as [st' completed]. cbn [fst] in Hnext.
  apply IH; [|exact Hnext]. intros f c Hf. apply Hstep. now right.
Qed.

(** The handler's store, in terms of what its steps preserve: a property
    of the store that deleteRepo of the repository and every upsert of one
    of its chunks preserve holds after the handler if it held before. *)
Lemma indexRepoDocs_preserves (parse : jsstring -> list Embeddings.Token)
  (P : Database -> Prop) (env : Env) (fetched : Result (list DocumentFile))
  (owner repo : jsstring) (force : bool) (db : Database) :
  (forall db0 o, P db0 ->
     P (fst (deleteRepo o (owner ++ js "/" ++ repo) db0))) ->
  (forall docFile chunk db0 o1 o2 e,
     P db0 ->
     P (fst (addDocument o1 o2
               (documentChunkOf (owner ++ js "/" ++ repo) docFile chunk e) db0))) ->
  P db ->
  P (fst (indexRepoDocs parse env fetched owner repo force db)).
Proof.
  intros Hdel Hadd Hdb. unfold indexRepoDocs.
  destruct (negb force && _); [exact Hdb|].
  destruct fetched as [docFiles|err]; [|exact Hdb].
  destruct (length docFiles =? 0); [exact Hdb|].
  assert (H1 : P (fst (if force
                       then deleteRepo (deleteWrite env) (owner ++ js "/" ++ repo) db
                       else (db, Ok tt)))).
  { destruct force; [apply Hdel|]; exact Hdb. }
  destruct (if force then _ else _) as [db1 [u|err]]; cbn [fst] in H1;
    [|exact H1].
  pose proof (indexFiles_preserves parse P env (owner ++ js "/" ++ repo) docFiles
                (fun f c _ _ db0 o1 o2 e => Hadd f c db0 o1 o2 e)
                (mkLoop db1 0 0) 0 H1) as H2.
  destruct (indexFiles _ _ _ _ _ _) as [st processed]. exact H2.
Qed.

(** X17: indexing a repository, with or without force and whatever fails on
    the way, leaves the chunks that the reads return for every other
    repository as they are. *)
Theorem index_keeps_other_repos (parse : jsstring -> list Embeddings.Token)
  (fk : bool) (env : Env) (fetched : Result (list DocumentFile))
  (owner repo other : jsstring) (force : bool) (db : Database) :
  reachable fk db ->
  other <> owner ++ js "/" ++ repo ->
  getDocumentsByRepo (fst (indexRepoDocs parse env fetched owner repo force db)) other
  = getDocumentsByRepo db other.
Proof.
  intros Hr Hne.
  set (P := fun db0 =>
              reachable fk db0
              /\ filter (fun row => jseqb (row_repo (fst row)) other) (joinRows db0)
                 = filter (fun row => jseqb (row_repo (fst row)) other) (joinRows db)).
  assert (HP : P (fst (indexRepoDocs parse env fetched owner repo force db))).
  { apply indexRepoDocs_preserves; subst P; cbn beta.
    - intros db0 o [Hr0 E0]. split; [now constructor|]. rewrite <- E0.
      destruct (reachable_wellFormed fk db0 Hr0) as [Hwf _].
      destruct (deleteRepo_state o (owner ++ js "/" ++ repo) db0) as [->| ->];
        [reflexivity|].
      rewrite joinRows_delete by exact Hwf.
      apply filter_filter_implied. intros row _ E. apply jseqb_eq in E.
      apply negb_true_iff, jseqb_neq. congruence.
    - intros f c db0 o1 o2 e [Hr0 E0]. split; [now constructor|]. rewrite <- E0.
      destruct (reachable_wellFormed fk db0 Hr0) as [Hwf _].
      now apply addDocument_other_repo.
    - now split. }
  destruct HP as [_ E]. unfold getDocumentsByRepo. now rewrite E.
Qed.

Lemma index_keeps_other_repos_witness :
  reachable true StoreSamples.twoRepoStore
  /\ js "c/d" <> js "a" ++ js "/" ++ js "b"
  /\ getDocumentsByRepo
       (fst (indexRepoDocs sampleParse quietEnv (Ok [sampleFile]) (js "a") (js "b")
               true StoreSamples.twoRepoStore))
       (js "c/d")
     = getDocumentsByRepo StoreSamples.twoRepoStore (js "c/d").
Proof.
  assert (H1 : reachable true StoreSamples.twoRepoStore)
    by (apply reachable_addAll; constructor).
  assert (H2 : js "c/d" <> js "a" ++ js "/" ++ js "b") by (vm_compute; discriminate).
  split; [exact H1|]. split; [exact H2|].
  exact (index_keeps_other_repos sampleParse true quietEnv (Ok [sampleFile])
           (js "a") (js "b") (js "c/d") true StoreSamples.twoRepoStore H1 H2).
Defined.



(** The handler leaves the store as it is when no documentation file was
    fetched, also under force (nothing is deleted then), when the fetch
    throws, and, without force, when the repository has chunks already. *)
Theorem index_leaves_store_alone (parse : jsstring -> list Embeddings.Token)
  (env : Env) (fetched : Result (list DocumentFile)) (err : Error)
  (owner repo : jsstring) (force : bool) (db : Database) :
  getDocumentsByRepo db (owner ++ js "/" ++ repo) <> [] ->
  indexRepoDocs parse env (Ok []) owner repo true db = (db, NoDocumentation)
  /\ fst (indexRepoDocs parse env (Ok []) owner repo force db) = db
  /\ fst (indexRepoDocs parse env (Throw err) owner repo force db) = db
  /\ indexRepoDocs parse env fetched owner repo false db
     = (db, AlreadyIndexed
              (length (getDocumentsByRepo db (owner ++ js "/" ++ repo)))).
Proof.
  intros Hsome. unfold indexRepoDocs. split; [reflexivity|].
  split; [now destruct (negb force && _)|].
  split; [now destruct (negb force && _)|].
  cbn [negb andb].
  destruct (getDocumentsByRepo db (owner ++ js "/" ++ repo)); [contradiction|].
  reflexivity.
Qed.

Lemma index_leaves_store_alone_witness :
  getDocumentsByRepo StoreSamples.twoRepoStore (js "a" ++ js "/" ++ js "b") <> []
  /\ indexRepoDocs sampleParse quietEnv (Ok []) (js "a") (js "b") true
       StoreSamples.twoRepoStore
     = (StoreSamples.twoRepoStore, NoDocumentation).
Proof.
  assert (H : getDocumentsByRepo StoreSamples.twoRepoStore
                (js "a" ++ js "/" ++ js "b") <> [])
    by (vm_compute; discriminate).
  split; [exact H|].
  exact (proj1 (index_leaves_store_alone sampleParse quietEnv (Ok []) TypeError
                  (js "a") (js "b") true StoreSamples.twoRepoStore H)).
Defined.

Lemma indexChunks_counts (env : Env) (repoFullName : jsstring)
  (docFile : DocumentFile) (chunks : list Embeddings.TextChunk) :
  forall st,
    (totalChunks st <= totalChunks (fst (indexChunks env repoFullName docFile chunks st))
     <= totalChunks st + length chunks)%nat
    /\ (snd (indexChunks env repoFullName docFile chunks st) = true ->
        totalChunks (fst (indexChunks env repoFullName docFile chunks st))
        = (totalChunks st + length chunks)%nat).
Proof.
  induction chunks as [|chunk rest IH]; intros st; cbn [indexChunks length].
  - cbn [fst snd]. split; lia.
  - destruct (embed env (calls st) (Embeddings.content chunk)) as [e|].
    + destruct (addDocument _ _ _ (store st)) as [db' [newId|err]].
      * specialize (IH (mkLoop db' (S (calls st)) (S (totalChunks st)))).
        cbn [totalChunks] in IH. destruct IH as [IH1 IH2].
        split; [lia|]. intros Hok. rewrite (IH2 Hok). lia.
      * cbn [fst snd totalChunks]. split; [lia|discriminate].
    + cbn [fst snd totalChunks]. split; [lia|discriminate].
Qed.

Lemma indexFiles_counts (parse : jsstring -> list Embeddings.Token) (env : Env)
  (repoFullName : jsstring) (docFiles : list DocumentFile) :
  forall st processed,
    let all :=
      length (flat_map (fun docFile =>
                          Embeddings.chunkMarkdownContent parse (fileContent docFile)
                            (path docFile)) docFiles) in
    let out := indexFiles parse env repoFullName docFiles st processed in
    (processed <= snd out <= processed + length docFiles)%nat
    /\ (totalChunks (fst out) <= totalChunks st + all)%nat
    /\ (snd out = (processed + length docFiles)%nat ->
        totalChunks (fst out) = (totalChunks st + all)%nat).
Proof.
  induction docFiles as [|docFile rest IH]; intros st processed;
    cbn [indexFiles flat_map length].
  - cbn [fst snd]. repeat split; lia.
  - pose proof (indexChunks_counts env repoFullName docFile
                  (Embeddings.chunkMarkdownContent parse (fileContent docFile)
                     (path docFile)) st) as [Hc1 Hc2].
    destruct (indexChunks env repoFullName docFile _ st) as [st' completed].
    cbn [fst snd] in Hc1, Hc2.
    specialize (IH st' (if completed then S processed else processed)).
    cbv zeta in IH |- *. destruct IH as [Hp [Ht He]].
    rewrite length_app.
    destruct completed.
    + specialize (Hc2 eq_refl). split; [lia|]. split; [lia|].
      intros Hall. rewrite He; lia.
    + split; [lia|]. split; [lia|]. intros Hall. lia.
Qed.

(** X19: the counts of a successful answer: the number of fetched files, at
    most as many processed files, and at most as many chunks as the chunker
    gives for the fetched files; when every file is reported processed,
    every chunk of every file was counted. *)
Theorem index_counts (parse : jsstring -> list Embeddings.Token) (env : Env)
  (fetched : Result (list DocumentFile)) (owner repo : jsstring) (force : bool)
  (db : Database) (processed files chunks : nat) :
  snd (indexRepoDocs parse env fetched owner repo force db)
  = Indexed processed files chunks ->
  exists docFiles,
    fetched = Ok docFiles
    /\ files = length docFiles
    /\ (0 < files)%nat
    /\ (processed <= files)%nat
    /\ (chunks <= length (flat_map (fun docFile =>
                                      Embeddings.chunkMarkdownContent parse
                                        (fileContent docFile) (path docFile))
                                   docFiles))%nat
    /\ (processed = files ->
        chunks = length (flat_map (fun docFile =>
                                     Embeddings.chunkMarkdownContent parse
                                       (fileContent docFile) (path docFile))
                                  docFiles)).
Proof.
  unfold indexRepoDocs.
  destruct (negb force && _); [discriminate|].
  destruct fetched as [docFiles|err]; [|discriminate].
  destruct (length docFiles =? 0)%nat eqn:Elen; [discriminate|].
  apply Nat.eqb_neq in Elen.
  destruct (if force then _ else _) as [db1 [[]|err]]; [|discriminate].
  pose proof (indexFiles_counts parse env (owner ++ js "/" ++ repo) docFiles
                (mkLoop db1 0 0) 0) as Hcounts.
  cbv zeta in Hcounts. cbn [totalChunks] in Hcounts.
  destruct (indexFiles parse env _ docFiles _ 0) as [st p].
  cbn [fst snd] in Hcounts |- *. destruct Hcounts as [Hp [Ht He]].
  intros Hresp. injection Hresp as <- <- <-.
  exists docFiles. split; [reflexivity|]. split; [reflexivity|].
  split; [lia|]. split; [lia|]. split; [lia|].
  intros Hall. apply He. lia.
Qed.

Lemma index_counts_witness :
  snd (indexRepoDocs sampleParse quietEnv (Ok [sampleFile]) (js "a") (js "b") true
         StoreSamples.twoRepoStore)
  = Indexed 1 1 1
  /\ exists docFiles,
       Ok [sampleFile] = Ok docFiles
       /\ 1%nat = length docFiles
       /\ (0 < 1)%nat
       /\ (1 <= 1)%nat
       /\ (1 <= length (flat_map (fun docFile =>
                                    Embeddings.chunkMarkdownContent sampleParse
                                      (fileContent docFile) (path docFile))
                                 docFiles))%nat
       /\ (1%nat = 1%nat ->
           1%nat = length (flat_map (fun docFile =>
                                  Embeddings.chunkMarkdownContent sampleParse
                                    (fileContent docFile) (path docFile))
                               docFiles)).
Proof.
  assert (H : snd (indexRepoDocs sampleParse quietEnv (Ok [sampleFile]) (js "a")
                     (js "b") true StoreSamples.twoRepoStore)
              = Indexed 1 1 1) by (vm_compute; reflexivity).
  split; [exact H|].
  exact (index_counts sampleParse quietEnv (Ok [sampleFile]) (js "a") (js "b") true
           StoreSamples.twoRepoStore 1 1 1 H).
Defined.

End ToolsFacts.

(** ** The indexer that runs at start-up *)

Module AutoIndexFacts.

Import VectorStore JSStringFacts VectorStoreFacts StoreMoreFacts Tools ToolsFacts
       AutoIndex.

Section Preserved.

Variable parse : jsstring -> list Embeddings.Token.
Variable parseDate : jsstring -> option Z.
Variable P : Database -> Prop.
Hypothesis P_addDocument :
  forall db o1 o2 doc, P db -> P (fst (addDocument o1 o2 doc db)).

Lemma indexAll_preserves (env : Env) (repoFullName : jsstring)
  (files : list DocumentFile) :
  forall st, P (store st) ->
             P (store (fst (indexAll parse env repoFullName files st))).
Proof.
  induction files as [|file rest IH]; intros st Hst; cbn [indexAll];
    [exact Hst|].
  pose proof (indexChunks_preserves P env repoFullName file
                (Embeddings.chunkMarkdownContent parse (fileContent file) (path file))
                (fun chunk _ db o1 o2 e => P_addDocument db o1 o2 _)
                st Hst) as Hfile.
  destruct (indexChunks env repoFullName file _ st) as [st' completed].
  cbn [fst] in Hfile. destruct completed; [now apply IH|exact Hfile].
Qed.

Lemma autoIndexRepo_preserves (env : Env)
  (client : option jsstring -> option jsstring -> Result (list DocumentFile))
  (repo : Repository) (st : LoopState) :
  P (store st) -> P (store (autoIndexRepo parse parseDate env client repo st)).
Proof.
  intros Hst. unfold autoIndexRepo.
  destruct (client _ _) as [files|err]; [|exact Hst].
  destruct (length files =? 0)%nat; [exact Hst|].
  destruct (Index.upToDate _ _ _); [exact Hst|].
  now apply indexAll_preserves.
Qed.

Lemma autoIndexRepositories_preserves (env : Env)
  (orgRepos : Result (list Repository))
  (client : option jsstring -> option jsstring -> Result (list DocumentFile))
  (db : Database) :
  P db -> P (autoIndexRepositories parse parseDate env orgRepos client db).
Proof.
  intros Hdb. unfold autoIndexRepositories.
  destruct orgRepos as [repos|err]; [|exact Hdb].
  assert (H : forall st, P (store st) ->
              P (store (fold_left
                          (fun st repo => autoIndexRepo parse parseDate env client repo st)
                          repos st))).
  { induction repos as [|repo rest IH]; intros st Hst; cbn [fold_left];
      [exact Hst|].
    apply IH. now apply autoIndexRepo_preserves. }
  now apply H.
Qed.

End Preserved.

(** X20: the indexer that runs at start-up never deletes: whatever the clients
    answer and whatever fails, every (repo, filePath, content) that has a
    chunk row before the run has one after it. Chunks of a text that has
    since changed or gone stay in the store. *)
Theorem auto_index_keeps_every_key (parse : jsstring -> list Embeddings.Token)
  (parseDate : jsstring -> option Z) (env : Env)
  (orgRepos : Result (list Repository))
  (client : option jsstring -> option jsstring -> Result (list DocumentFile))
  (db : Database) (d : DocRow) :
  In d (documents db) ->
  exists d',
    In d' (documents (autoIndexRepositories parse parseDate env orgRepos client db))
    /\ row_repo d' = row_repo d
    /\ row_file_path d' = row_file_path d
    /\ row_content d' = row_content d.
Proof.
  intros Hin.
  apply (autoIndexRepositories_preserves parse parseDate
           (fun db0 => exists d', In d' (documents db0)
                                  /\ row_repo d' = row_repo d
                                  /\ row_file_path d' = row_file_path d
                                  /\ row_content d' = row_content d)).
  - intros db0 o1 o2 doc [d0 [H0 [Hr [Hf Hc]]]].
    assert (Hstay : exists d1, In d1 (documents (fst (addDocument o1 o2 doc db0)))
                               /\ row_repo d1 = row_repo d0
                               /\ row_file_path d1 = row_file_path d0
                               /\ row_content d1 = row_content d0).
    { destruct (addDocument_state o1 o2 doc db0) as [->|[h [_ [->| ->]]]].
      - now exists d0.
      - now apply afterDocumentWrite_key_stays.
      - rewrite afterUpsert_documents, <- afterDocumentWrite_documents.
        now apply afterDocumentWrite_key_stays. }
    destruct Hstay as [d1 [H1 [Hr1 [Hf1 Hc1]]]].
    exists d1. split; [exact H1|]. split; [congruence|]. split; congruence.
  - exists d. tauto.
Qed.

Lemma auto_index_keeps_every_key_witness :
  exists d',
    In d' (documents (autoIndexRepositories Tools.sampleParse Index.sampleParse
                        quietEnv (Ok [sampleRepository]) sampleClient
                        StoreSamples.twoRepoStore))
    /\ row_repo d' = js "c/d"
    /\ row_file_path d' = js "docs/x.md"
    /\ row_content d' = js "Y".
Proof.
  exact (auto_index_keeps_every_key Tools.sampleParse Index.sampleParse quietEnv
           (Ok [sampleRepository]) sampleClient StoreSamples.twoRepoStore
           (documentRow 1 StoreSamples.otherRepoDoc (js "9e1b77d"))
           (or_introl eq_refl)).
Defined.

(** X21: both indexers keep the store among those that upserts and deletions
    reach from a fresh database, so that what holds of every such store
    holds after they ran, whatever failed on the way. *)
Theorem indexers_keep_store_reachable (parse : jsstring -> list Embeddings.Token)
  (parseDate : jsstring -> option Z) (env : Env)
  (orgRepos : Result (list Repository))
  (client : option jsstring -> option jsstring -> Result (list DocumentFile))
  (fetched : Result (list DocumentFile)) (owner repo : jsstring) (force : bool)
  (fk : bool) (db : Database) :
  reachable fk db ->
  reachable fk (autoIndexRepositories parse parseDate env orgRepos client db)
  /\ reachable fk (fst (indexRepoDocs parse env fetched owner repo force db)).
Proof.
  intros Hdb. split.
  - apply (autoIndexRepositories_preserves parse parseDate (reachable fk));
      [|exact Hdb].
    intros db0 o1 o2 doc H0. now apply reach_add.
  - apply (indexRepoDocs_preserves parse (reachable fk)); [| |exact Hdb].
    + intros db0 o H0. now apply reach_delete.
    + intros f c db0 o1 o2 e H0. now apply reach_add.
Qed.

Lemma indexers_keep_store_reachable_witness :
  reachable true (open true)
  /\ reachable true
       (autoIndexRepositories Tools.sampleParse Index.sampleParse quietEnv
          (Ok [sampleRepository]) sampleClient (open true)).
Proof.
  split; [apply reach_open|].
  exact (proj1 (indexers_keep_store_reachable Tools.sampleParse Index.sampleParse
                  quietEnv (Ok [sampleRepository]) sampleClient (Ok [sampleFile])
                  (js "a") (js "b") false true (open true) (reach_open true))).
Defined.

End AutoIndexFacts.

(** ** More on the chunker *)

Module ChunkerFacts.

Import Embeddings JSStringFacts EmbeddingsFacts Headings.

Lemma pushCurrent_attributed (titles sections : list jsstring) (st : Acc) :
  attributed titles sections st ->
  Forall (attributedChunk titles sections) (pushCurrent st).
Proof.
  intros [Ht [Hs Hcs]]. unfold pushCurrent. apply Forall_app. split; [exact Hcs|].
  constructor; [|constructor]. split; projections; [exact Ht|].
  unfold orUndefined. destruct (currentSection st) as [|x s'] eqn:E; cbn [truthy];
    [exact I|].
  split; [discriminate|]. destruct Hs as [Hs|Hs]; [discriminate|exact Hs].
Qed.

Lemma step_attributed (titles sections : list jsstring) (token : Token)
  (rest : list Token) (st : Acc) :
  incl (headingTexts true (token :: rest)) titles ->
  incl (headingTexts false (token :: rest)) sections ->
  attributed titles sections st ->
  attributed titles sections (step token rest st).
Proof.
  intros HT HS Hst. unfold step. cbn [headingTexts] in HT, HS.
  destruct (jseqb (tok_type token) (js "heading_open")); cbn [andb] in HT, HS.
  - assert (H1 : attributed titles sections
             (if truthy (trim (currentContent st))
              then mkAcc (pushCurrent st) (currentSection st) [] (currentTitle st)
              else st)).
    { destruct (truthy (trim (currentContent st))); [|exact Hst].
      destruct Hst as [Ht [Hs Hcs]]. split; [exact Ht|]. split; [exact Hs|].
      projections. apply pushCurrent_attributed. now repeat split. }
    destruct rest as [|h rest']; [exact H1|].
    destruct (jseqb (tok_type h) (js "inline")); [|exact H1].
    destruct H1 as [Ht [Hs Hcs]].
    destruct (jseqb (tok_tag token) (js "h1")); cbn [Bool.eqb] in HT, HS;
      projections.
    + split; [apply HT; now left|]. split; [now left|exact Hcs].
    + split; [exact Ht|]. split; [right; apply HS; now left|exact Hcs].
  - destruct (isBlockOpen token); [|exact Hst].
    destruct Hst as [Ht [Hs Hcs]].
    destruct (1500 <? _); projections.
    + split; [exact Ht|]. split; [exact Hs|].
      destruct (truthy (trim (currentContent st))); [|exact Hcs].
      apply pushCurrent_attributed. now repeat split.
    + now repeat split.
Qed.

Lemma loop_attributed (titles sections : list jsstring) (tokens : list Token) :
  incl (headingTexts true tokens) titles ->
  incl (headingTexts false tokens) sections ->
  forall st, attributed titles sections st ->
             attributed titles sections (loop tokens st).
Proof.
  induction tokens as [|token rest IH]; intros HT HS st Hst; cbn [loop];
    [exact Hst|].
  apply IH.
  - intros x Hx. apply HT. cbn [headingTexts]. apply in_or_app. now right.
  - intros x Hx. apply HS. cbn [headingTexts]. apply in_or_app. now right.
  - now apply step_attributed.
Qed.

Lemma chunks_attributed (parse : jsstring -> list Token)
  (titles sections : list jsstring) (content filePath : jsstring) :
  In (extractTitleFromPath filePath) titles ->
  incl (headingTexts true (parse content)) titles ->
  incl (headingTexts false (parse content)) sections ->
  Forall (attributedChunk titles sections)
         (chunkMarkdownContent parse content filePath).
Proof.
  intros H0 HT HS.
  pose proof (loop_attributed titles sections (parse content) HT HS
                (mkAcc [] [] [] (extractTitleFromPath filePath))) as Hloop.
  assert (Hstart : attributed titles sections
                     (mkAcc [] [] [] (extractTitleFromPath filePath))).
  { split; [exact H0|]. split; [now left|constructor]. }
  specialize (Hloop Hstart).
  assert (Hstruct : Forall (attributedChunk titles sections)
                      (structuredChunks (parse content) filePath)).
  { unfold structuredChunks.
    destruct (truthy (trim (currentContent (loop (parse content) _))));
      [now apply pushCurrent_attributed|apply Hloop]. }
  unfold chunkMarkdownContent.
  destruct (structuredChunks (parse content) filePath) as [|c cs]; [|exact Hstruct].
  constructor; [|constructor]. split; [|exact I]. apply Hloop.
Qed.

(** X22: where the attribution of a chunk comes from: its title is the title
    made from the path or the text of an h1 heading of the document, and
    its section, when it has one, is the non-empty text of a heading of
    another level. *)
Theorem chunk_attribution (parse : jsstring -> list Token)
  (content filePath : jsstring) :
  Forall
    (fun c =>
       (title c = extractTitleFromPath filePath
        \/ In (title c) (headingTexts true (parse content)))
       /\ (section c = None
           \/ exists s, section c = Some s /\ s <> []
                        /\ In s (headingTexts false (parse content))))
    (chunkMarkdownContent parse content filePath).
Proof.
  pose proof (chunks_attributed parse
                (extractTitleFromPath filePath :: headingTexts true (parse content))
                (headingTexts false (parse content)) content filePath
                (or_introl eq_refl)
                (fun x Hx => or_intror Hx) (fun x Hx => Hx)) as H.
  eapply Forall_impl; [|exact H].
  intros c [Ht Hs]. split.
  - destruct Ht as [Ht|Ht]; [now left|now right].
  - destruct (section c) as [s|]; [|now left].
    right. exists s. split; [reflexivity|exact Hs].
Qed.

Lemma headingTexts_without_heading (top : bool) (tokens : list Token) :
  existsb isHeading tokens = false -> headingTexts top tokens = [].
Proof.
  induction tokens as [|token rest IH]; intros Hno; [reflexivity|].
  cbn [existsb] in Hno. apply orb_false_iff in Hno as [Ht Hrest].
  unfold isHeading in Ht. cbn [headingTexts]. rewrite Ht. cbn [andb app].
  now apply IH.
Qed.

(** X23: a document without a heading: every chunk carries the title made from
    the path and no section. *)
Theorem headingless_document (parse : jsstring -> list Token)
  (content filePath : jsstring) :
  existsb isHeading (parse content) = false ->
  Forall (fun c => title c = extractTitleFromPath filePath /\ section c = None)
         (chunkMarkdownContent parse content filePath).
Proof.
  intros Hno.
  pose proof (chunks_attributed parse [extractTitleFromPath filePath] []
                content filePath (or_introl eq_refl)) as H.
  rewrite !(headingTexts_without_heading _ _ Hno) in H.
  specialize (H (fun x Hx => match Hx with end) (fun x Hx => Hx)).
  eapply Forall_impl; [|exact H].
  intros c [Ht Hs]. split.
  - destruct Ht as [Ht|[]]. now symmetry.
  - destruct (section c) as [s|]; [|reflexivity]. now destruct Hs as [_ []].
Qed.

Lemma headingless_document_witness :
  Forall (fun c => title c = extractTitleFromPath (js "docs/setup-guide.md")
                   /\ section c = None)
         (chunkMarkdownContent (fun _ => listItemTokens (js "item")) (js "- item")
            (js "docs/setup-guide.md")).
Proof.
  exact (headingless_document (fun _ => listItemTokens (js "item")) (js "- item")
           (js "docs/setup-guide.md") eq_refl).
Defined.

Lemma loop_unhandled (tokens : list Token) :
  existsb handled tokens = false -> forall st, loop tokens st = st.
Proof.
  induction tokens as [|token rest IH]; intros Hno st; [reflexivity|].
  cbn [existsb] in Hno. apply orb_false_iff in Hno as [Ht Hrest].
  unfold handled in Ht. apply orb_false_iff in Ht as [Hh Hb].
  cbn [loop]. unfold step. rewrite Hh, Hb. now apply IH.
Qed.

(** X24: a document in which the loop takes up no token, such as one that
    consists of fenced code, is not chunked by structure: the result is the
    one chunk of the first 1500 characters of the raw text, with the title
    made from the path. *)
Theorem unhandled_tokens_fallback (parse : jsstring -> list Token)
  (content filePath : jsstring) :
  existsb handled (parse content) = false ->
  chunkMarkdownContent parse content filePath
  = [mkChunk (substring0 1500 content) (extractTitleFromPath filePath) None].
Proof.
  intros Hno. unfold chunkMarkdownContent, structuredChunks, finalTitle.
  rewrite (loop_unhandled _ Hno). reflexivity.
Qed.

Lemma unhandled_tokens_fallback_witness :
  chunkMarkdownContent (fun _ => fenceTokens (js "make install"))
    ([96; 96; 96; 10]%N ++ js "make install" ++ [10; 96; 96; 96]%N)
    (js "docs/build.md")
  = [mkChunk (substring0 1500
                ([96; 96; 96; 10]%N ++ js "make install" ++ [10; 96; 96; 96]%N))
             (extractTitleFromPath (js "docs/build.md")) None].
Proof.
  exact (unhandled_tokens_fallback (fun _ => fenceTokens (js "make install"))
           ([96; 96; 96; 10]%N ++ js "make install" ++ [10; 96; 96; 96]%N)
           (js "docs/build.md") eq_refl).
Defined.

Lemma loop_short (tokens : list Token) :
  existsb isHeading tokens = false ->
  forall acc t,
    length acc + length (concat (pieces tokens)) <= 1500 ->
    loop tokens (mkAcc [] [] acc t) = mkAcc [] [] (acc ++ concat (pieces tokens)) t.
Proof.
  induction tokens as [|token rest IH]; intros Hno acc t Hlen.
  - cbn. now rewrite app_nil_r.
  - cbn [existsb] in Hno. apply orb_false_iff in Hno as [Ht Hrest].
    unfold isHeading in Ht. rewrite pieces_cons in Hlen |- *. rewrite Ht in Hlen |- *.
    cbn [loop]. unfold step. rewrite Ht.
    destruct (isBlockOpen token).
    + cbn [app concat] in Hlen |- *. rewrite length_app in Hlen. projections.
      replace (1500 <? length acc + length (contentToAdd token rest)) with false
        by (symmetry; apply Nat.ltb_ge; lia).
      rewrite IH; [now rewrite <- app_assoc|exact Hrest|].
      rewrite length_app. lia.
    + cbn [app] in Hlen |- *. now apply IH.
Qed.

(** X25: a short document without a heading gives one chunk: when the pieces
    of text that the loop collects are 1500 characters at most together
    and not all white space, the result is the chunk of all of them, in
    order, trimmed. *)
Theorem short_document_one_chunk (parse : jsstring -> list Token)
  (content filePath : jsstring) :
  existsb isHeading (parse content) = false ->
  length (concat (pieces (parse content))) <= 1500 ->
  trim (concat (pieces (parse content))) <> [] ->
  chunkMarkdownContent parse content filePath
  = [mkChunk (trim (concat (pieces (parse content))))
             (extractTitleFromPath filePath) None].
Proof.
  intros Hno Hlen Hvis. unfold chunkMarkdownContent, structuredChunks.
  rewrite (loop_short _ Hno [] (extractTitleFromPath filePath) Hlen).
  cbn [app]. projections.
  destruct (trim (concat (pieces (parse content)))) eqn:E; [contradiction|].
  cbn [truthy]. unfold pushCurrent. projections. cbn [app orUndefined truthy].
  now rewrite E.
Qed.

Lemma short_document_one_chunk_witness :
  chunkMarkdownContent (fun _ => paragraphTokens (js "hello")) (js "hello")
    (js "docs/a.md")
  = [mkChunk (trim (concat (pieces (paragraphTokens (js "hello")))))
             (extractTitleFromPath (js "docs/a.md")) None].
Proof.
  assert (H2 : length (concat (pieces (paragraphTokens (js "hello")))) <= 1500)
    by (vm_compute; lia).
  assert (H3 : trim (concat (pieces (paragraphTokens (js "hello")))) <> [])
    by (vm_compute; discriminate).
  exact (short_document_one_chunk (fun _ => paragraphTokens (js "hello"))
           (js "hello") (js "docs/a.md") eq_refl H2 H3).
Defined.

End ChunkerFacts.

(** ** The requests to the embeddings provider *)

Module EmbeddingsApiFacts.

Import EmbeddingsApi.

Set Warnings "-abstract-large-number".

Lemma batch_withinLimits (texts : list jsstring) (i : nat) :
  i < length texts ->
  withinLimits (map (substring0 8000) (firstn 100 (skipn i texts))).
Proof.
  intros Hi. split.
  - rewrite length_map, length_firstn, length_skipn. lia.
  - apply Forall_map. apply Forall_forall. intros text _.
    unfold substring0. rewrite length_firstn. lia.
Qed.

Lemma skipn_next (texts : list jsstring) (i : nat) :
  skipn i texts = firstn 100 (skipn i texts) ++ skipn (i + 100) texts.
Proof.
  rewrite <- (firstn_skipn 100 (skipn i texts)) at 1.
  f_equal. rewrite skipn_skipn. f_equal. lia.
Qed.

Lemma batchLoop_requests (provider : Provider) (texts : list jsstring) :
  forall fuel i embeddings sent,
    length texts <= i + 100 * fuel ->
    exists batches rest,
      fst (batchLoop (S fuel) provider texts i embeddings sent)
      = sent ++ map Many batches
      /\ Forall withinLimits batches
      /\ map (substring0 8000) (skipn i texts) = concat batches ++ rest
      /\ (snd (batchLoop (S fuel) provider texts i embeddings sent) <> None ->
          rest = []).
Proof.
  induction fuel as [|fuel IH]; intros i embeddings sent Hfuel.
  - assert (Hi : length texts <= i) by lia.
    cbn [batchLoop]. apply Nat.ltb_ge in Hi. rewrite Hi. apply Nat.ltb_ge in Hi.
    exists [], []. cbn [fst snd map concat app]. rewrite app_nil_r.
    rewrite skipn_all2 by exact Hi. repeat split; constructor.
  - remember (S fuel) as fuel1 eqn:Efuel. cbn [batchLoop].
    destruct (i <? length texts) eqn:Hi.
    + apply Nat.ltb_lt in Hi. cbv zeta. unfold create.
      destruct (provider (length sent) _) as [data|] eqn:Eanswer.
      * subst fuel1.
        destruct (IH (i + 100) (embeddings ++ data)
                    (sent ++ [Many (map (substring0 8000)
                                        (firstn 100 (skipn i texts)))]))
          as [batches [rest [Hsent [Hok [Hall Hrest]]]]]; [lia|].
        exists (map (substring0 8000) (firstn 100 (skipn i texts)) :: batches), rest.
        split; [rewrite Hsent, <- app_assoc; reflexivity|].
        split; [constructor; [now apply batch_withinLimits|exact Hok]|].
        split; [|exact Hrest].
        rewrite (skipn_next texts i) at 1. rewrite map_app, Hall.
        cbn [concat]. now rewrite app_assoc.
      * exists [map (substring0 8000) (firstn 100 (skipn i texts))],
               (map (substring0 8000) (skipn (i + 100) texts)).
        cbn [fst snd map concat]. rewrite app_nil_r.
        split; [reflexivity|].
        split; [constructor; [now apply batch_withinLimits|constructor]|].
        split; [|intros Hsome; now contradiction Hsome].
        rewrite (skipn_next texts i) at 1. now rewrite map_app.
    + apply Nat.ltb_ge in Hi.
      exists [], []. cbn [fst snd map concat app]. rewrite app_nil_r.
      rewrite skipn_all2 by exact Hi. repeat split; constructor.
Qed.

(** X26: what generateEmbeddings sends, whatever the provider answers: arrays of
    one to a hundred texts of 8000 characters at most, which are, in order,
    the given texts cut to 8000 characters; all of them when the method
    returns, the first of them when a request fails. *)
Theorem generateEmbeddings_requests (provider : Provider)
  (texts : list jsstring) (sent : list Input) :
  exists batches rest,
    fst (generateEmbeddings provider texts sent) = sent ++ map Many batches
    /\ Forall withinLimits batches
    /\ map (substring0 8000) texts = concat batches ++ rest
    /\ (snd (generateEmbeddings provider texts sent) <> None -> rest = []).
Proof.
  unfold generateEmbeddings.
  destruct (batchLoop_requests provider texts (length texts) 0 [] sent)
    as [batches [rest H]]; [lia|].
  exists batches, rest. exact H.
Qed.

Lemma batchLoop_pointwise (provider : Provider) (embed : jsstring -> list float)
  (texts : list jsstring) :
  (forall n batch, provider n (Many batch) = Some (map embed batch)) ->
  forall fuel i embeddings sent,
    length texts <= i + 100 * fuel ->
    snd (batchLoop (S fuel) provider texts i embeddings sent)
    = Some (embeddings
            ++ map (fun text => embed (substring0 8000 text)) (skipn i texts)).
Proof.
  intros Hpoint.
  induction fuel as [|fuel IH]; intros i embeddings sent Hfuel.
  - assert (Hi : length texts <= i) by lia.
    cbn [batchLoop]. apply Nat.ltb_ge in Hi. rewrite Hi. apply Nat.ltb_ge in Hi.
    rewrite skipn_all2 by exact Hi. cbn [snd map]. now rewrite app_nil_r.
  - remember (S fuel) as fuel1 eqn:Efuel. cbn [batchLoop].
    destruct (i <? length texts) eqn:Hi.
    + cbv zeta. unfold create. rewrite Hpoint. subst fuel1.
      rewrite IH by lia. f_equal. rewrite <- app_assoc. f_equal.
      rewrite (skipn_next texts i) at 2. rewrite map_app, map_map. reflexivity.
    + apply Nat.ltb_ge in Hi. rewrite skipn_all2 by exact Hi.
      cbn [snd map]. now rewrite app_nil_r.
Qed.

(** X27: batching does not show in the result: with a provider that answers
    every array of texts text by text, generateEmbeddings returns the
    embedding of each given text cut to 8000 characters, in the order of
    the texts, however many of them there are. *)
Theorem batching_is_transparent (provider : Provider)
  (embed : jsstring -> list float) (texts : list jsstring) (sent : list Input) :
  (forall n batch, provider n (Many batch) = Some (map embed batch)) ->
  snd (generateEmbeddings provider texts sent)
  = Some (map (fun text => embed (substring0 8000 text)) texts).
Proof.
  intros Hpoint. unfold generateEmbeddings.
  rewrite (batchLoop_pointwise provider embed texts Hpoint) by lia.
  reflexivity.
Qed.

Lemma batching_is_transparent_witness :
  snd (generateEmbeddings constantProvider (repeat (js "x") 250) [])
  = Some (map (fun text => (fun _ => [1; 0]%float) (substring0 8000 text))
              (repeat (js "x") 250)).
Proof.
  exact (batching_is_transparent constantProvider (fun _ => [1; 0]%float)
           (repeat (js "x") 250) [] (fun n batch => eq_refl)).
Defined.

Lemma batchLoop_failure (provider : Provider) (texts : list jsstring) :
  forall fuel i embeddings sent,
    length texts <= i + 100 * fuel ->
    snd (batchLoop (S fuel) provider texts i embeddings sent) = None ->
    exists earlier batch,
      fst (batchLoop (S fuel) provider texts i embeddings sent)
      = (sent ++ map Many earlier) ++ [Many batch]
      /\ provider (length (sent ++ map Many earlier)) (Many batch) = None.
Proof.
  induction fuel as [|fuel IH]; intros i embeddings sent Hfuel.
  - assert (Hi : length texts <= i) by lia.
    cbn [batchLoop]. apply Nat.ltb_ge in Hi. rewrite Hi. discriminate.
  - remember (S fuel) as fuel1 eqn:Efuel. cbn [batchLoop].
    destruct (i <? length texts) eqn:Hi; [|discriminate].
    cbv zeta. unfold create.
    destruct (provider (length sent) _) as [data|] eqn:Eanswer.
    + subst fuel1. intros Hnone.
      destruct (IH (i + 100) (embeddings ++ data) _ ltac:(lia) Hnone)
        as [earlier [batch [Hsent Hfail]]].
      exists (map (substring0 8000) (firstn 100 (skipn i texts)) :: earlier), batch.
      cbn [map].
      replace (sent ++ Many (map (substring0 8000) (firstn 100 (skipn i texts)))
                         :: map Many earlier)
        with ((sent ++ [Many (map (substring0 8000) (firstn 100 (skipn i texts)))])
              ++ map Many earlier)
        by (now rewrite <- app_assoc).
      split; [exact Hsent|exact Hfail].
    + intros _. exists [], (map (substring0 8000) (firstn 100 (skipn i texts))).
      cbn [map fst]. rewrite app_nil_r. split; [reflexivity|exact Eanswer].
Qed.

(** X28: generateEmbeddings fails only when a request of its own fails, and
    that request is the last one it sends: the loop over the batches
    always comes to its end. *)
Theorem generateEmbeddings_fails_with_provider (provider : Provider)
  (texts : list jsstring) (sent : list Input) :
  snd (generateEmbeddings provider texts sent) = None ->
  exists earlier batch,
    fst (generateEmbeddings provider texts sent)
    = (sent ++ map Many earlier) ++ [Many batch]
    /\ provider (length (sent ++ map Many earlier)) (Many batch) = None.
Proof.
  unfold generateEmbeddings. apply batchLoop_failure. lia.
Qed.

Lemma generateEmbeddings_fails_with_provider_witness :
  exists earlier batch,
    fst (generateEmbeddings downProvider [js "x"] [])
    = ([] ++ map Many earlier) ++ [Many batch]
    /\ downProvider (length ([] ++ map Many earlier)) (Many batch) = None.
Proof.
  exact (generateEmbeddings_fails_with_provider downProvider [js "x"] [] eq_refl).
Defined.

(** X29: the request behind a search: createQueryEmbedding sends one request,
    whose text is the prefix followed by the first 7978 characters of the
    query; what a longer query holds behind them is not sent. *)
Theorem query_request (provider : Provider) (query : jsstring)
  (sent : list Input) :
  fst (createQueryEmbedding provider query sent)
  = sent ++ [One (js "Documentation search: " ++ substring0 7978 query)].
Proof.
  unfold createQueryEmbedding, generateEmbedding, create.
  assert (Hcut : substring0 8000 (js "Documentation search: " ++ query)
                 = js "Documentation search: " ++ substring0 7978 query).
  { unfold substring0. rewrite firstn_app.
    replace (length (js "Documentation search: ")) with 22 by reflexivity.
    replace (8000 - 22) with 7978 by reflexivity.
    reflexivity. }
  rewrite Hcut.
  destruct (provider (length sent) _) as [[|embedding data]|]; reflexivity.
Qed.

End EmbeddingsApiFacts.
